(** * uclcoin: the chain-state owner [BlockChain] of [blockchain.py]

    A shallow embedding of the validation and ledger core: block
    validation, transaction admission, balance replay and the block
    template builder, followed by the properties stated about them. *)

From Stdlib Require Import ZArith String Ascii Lia.
From stdpp Require Import gmap strings list fin_maps pretty.

Local Open Scope string_scope.
Local Open Scope Z_scope.
Local Open Scope list_scope.

(** ** Data entities

    [uclcoin.transaction] and [uclcoin.block] are collaborators of
    [blockchain.py]; the chain only reads their attributes, calls
    [verify()] and compares them with [==] / [!=]. Python integers are
    unbounded, hence [Z]. *)

Record Transaction := {
  source : string;
  destination : string;
  amount : Z;
  fee : Z;
  timestamp : Z;
  signature : string;
  tx_hash : string
}.

Record Block := {
  index : Z;
  transactions : list Transaction;
  previous_hash : string;
  block_timestamp : Z;
  nonce : Z;
  current_hash : string
}.

(** Modelled from the spec: [Transaction.__eq__] and [Block.__eq__] are
    not part of [blockchain.py]; the value-equality check is structural
    equality over the whole entity graph, including the nested
    transaction list, so [==] is Leibniz equality of the records. *)
#[global] Instance Transaction_eq_dec : EqDecision Transaction.
Proof. solve_decision. Defined.

#[global] Instance Block_eq_dec : EqDecision Block.
Proof. solve_decision. Defined.

(** ** Exceptions

    The four [BlockchainException] subclasses carry the offending block
    index; the message text only reaches the logger and is left out.
    [IndexError] and [AttributeError] are the interpreter's own faults
    ([blocks[-1]] on an empty list, an attribute of [None]). *)

Inductive BlockchainException :=
| GenesisBlockMismatch (i : Z)
| InvalidHash (i : Z)
| ChainContinuityError (i : Z)
| InvalidTransactions (i : Z).

Inductive exn :=
| Blockchain (e : BlockchainException)
| IndexError
| AttributeError.

Inductive result (A : Type) :=
| Ok (a : A)
| Raise (e : exn).
Arguments Ok {A} a.
Arguments Raise {A} e.

#[global] Instance result_ret : MRet result := fun A a => Ok a.

#[global] Instance result_bind : MBind result := fun A B k r =>
  match r with
  | Ok a => k a
  | Raise e => Raise e
  end.

(** ** Chain state

    [pending_transactions] is a Python list; [get_minable_block] tests
    its entries against [None], so an entry is an [option]. *)

Record BlockChain := {
  blocks : list Block;
  pending_transactions : list (option Transaction)
}.

Definition COINS_PER_BLOCK : Z := 10.
Definition MAX_TRANSACTIONS_PER_BLOCK : Z := 50.
Definition MINIMUM_HASH_DIFFICULTY : Z := 6.

(** Python string helpers: [s[:d]] (a negative bound counts from the
    end) and [s.count(c)] for a one-character pattern. *)
Definition slice_to (d : Z) (s : string) : string :=
  if 0 <=? d then substring 0 (Z.to_nat d) s
  else substring 0 (String.length s - Z.to_nat (- d)) s.

Fixpoint str_count (c : ascii) (s : string) : Z :=
  match s with
  | EmptyString => 0
  | String a rest => (if bool_decide (a = c) then 1 else 0) + str_count c rest
  end.

(** Truth value of what [find_duplicate_transactions] returns: a block
    index (an integer, false when it is [0]) or [False]. *)
Definition truthy (r : option Z) : bool :=
  match r with
  | Some i => negb (i =? 0)
  | None => false
  end.

Section Chain.

(** The cryptographic collaborator: signature verification and the two
    digests the constructors compute. *)
Variable verify : Transaction -> bool.
Variable calculate_tx_hash : string -> string -> Z -> Z -> Z -> string -> string.
Variable calculate_block_hash : Z -> list Transaction -> string -> Z -> Z -> string.
(** The nonce a [Block] gets when the constructor is called without one. *)
Variable default_nonce : Z.

(** Modelled from the spec: the constructors of [Transaction] and
    [Block] (not part of [blockchain.py]) store their arguments and
    fill the identity hash with a deterministic digest of the other
    fields. *)
Definition new_Transaction (src dst : string) (amt f ts : Z) (sig : string)
  : Transaction :=
  {| source := src; destination := dst; amount := amt; fee := f;
     timestamp := ts; signature := sig;
     tx_hash := calculate_tx_hash src dst amt f ts sig |}.

Definition new_Block (i : Z) (txs : list Transaction) (prev : string)
    (ts : Z) (n : option Z) : Block :=
  let n := default default_nonce n in
  {| index := i; transactions := txs; previous_hash := prev;
     block_timestamp := ts; nonce := n;
     current_hash := calculate_block_hash i txs prev ts n |}.

Definition calculate_hash_dificulty (self : BlockChain) (i : option Z) : Z :=
  MINIMUM_HASH_DIFFICULTY.

Definition get_reward (self : BlockChain) (i : Z) : Z := COINS_PER_BLOCK.

(** [find_duplicate_transactions]: the index of the first block that
    holds the hash, or [False] ([None]). *)
Fixpoint find_in_blocks (bs : list Block) (transaction_hash : string)
  : option Z :=
  match bs with
  | [] => None
  | block :: rest =>
      if existsb (fun t => bool_decide (tx_hash t = transaction_hash))
                 (transactions block)
      then Some (index block)
      else find_in_blocks rest transaction_hash
  end.

Definition find_duplicate_transactions (self : BlockChain)
    (transaction_hash : string) : option Z :=
  find_in_blocks (blocks self) transaction_hash.

(** The body of the balance loops: both [if]s run for each transaction. *)
Definition apply_transaction (address : string) (balance : Z)
    (t : Transaction) : Z :=
  let balance :=
    if bool_decide (source t = address) then balance - (amount t + fee t)
    else balance in
  if bool_decide (destination t = address) then balance + amount t
  else balance.

Definition get_balance (self : BlockChain) (address : string) : Z :=
  fold_left
    (fun balance block =>
       fold_left (apply_transaction address) (transactions block) balance)
    (blocks self) 0.

Fixpoint balance_pending_loop (address : string)
    (pending : list (option Transaction)) (balance : Z) : result Z :=
  match pending with
  | [] => Ok balance
  | None :: _ => Raise AttributeError
  | Some t :: rest =>
      balance_pending_loop address rest (apply_transaction address balance t)
  end.

Definition get_balance_pending (self : BlockChain) (address : string)
  : result Z :=
  balance_pending_loop address (pending_transactions self)
                       (get_balance self address).

Definition get_latest_block (self : BlockChain) : result Block :=
  match last (blocks self) with
  | Some b => Ok b
  | None => Raise IndexError
  end.

(** The selection loop of [get_minable_block], carrying the local
    variables [transactions] and [fees]. *)
Fixpoint select_pending (self : BlockChain)
    (pending : list (option Transaction))
    (txs : list Transaction) (fees : Z) : list Transaction * Z :=
  match pending with
  | [] => (txs, fees)
  | None :: _ => (txs, fees)
  | Some p :: rest =>
      if bool_decide (tx_hash p ∈ tx_hash <$> txs)
      then select_pending self rest txs fees
      else if truthy (find_duplicate_transactions self (tx_hash p))
      then select_pending self rest txs fees
      else if negb (verify p)
      then select_pending self rest txs fees
      else
        let txs := txs ++ [p] in
        let fees := fees + fee p in
        if MAX_TRANSACTIONS_PER_BLOCK <=? Z.of_nat (length txs)
        then (txs, fees)
        else select_pending self rest txs fees
  end.

(** [now] is the value of [int(time.time())]. The method reads the
    chain and returns it as it found it. *)
Definition get_minable_block (reward_address : string) (now : Z)
    (self : BlockChain) : result Block * BlockChain :=
  (latest_block ← get_latest_block self;
   let new_block_id := index latest_block + 1 in
   let previous_hash := current_hash latest_block in
   let '(txs, fees) := select_pending self (pending_transactions self) [] 0 in
   let reward_transaction :=
     new_Transaction "0" reward_address
                     (get_reward self new_block_id + fees) 0 now "0" in
   Ok (new_Block new_block_id (txs ++ [reward_transaction])
                 previous_hash now None),
   self).

Definition _get_genesis_block : Block :=
  let genesis_transaction_one :=
    new_Transaction "0"
      "032b72046d335b5318a672763338b08b9642225189ab3f0cba777622cfee0fc07b"
      10 0 0 "" in
  let genesis_transaction_two :=
    new_Transaction "0"
      "02f846677f65911f140a42af8fe7c1e5cbc7d148c44057ce49ee0cd0a72b21df4f"
      10 0 0 "" in
  new_Block 0 [genesis_transaction_one; genesis_transaction_two]
    "000000000000000000000000000000000000000000000000000000000000000000"
    0 (Some 27118821).

Definition _check_genesis_block (self : BlockChain) (block : Block)
  : result unit :=
  if bool_decide (block ≠ _get_genesis_block)
  then Raise (Blockchain (GenesisBlockMismatch (index block)))
  else Ok tt.

Definition _check_hash_and_hash_pattern (self : BlockChain) (block : Block)
  : result unit :=
  let hash_difficulty := calculate_hash_dificulty self None in
  if str_count "0" (slice_to hash_difficulty (current_hash block))
     <? hash_difficulty
  then Raise (Blockchain (InvalidHash (index block)))
  else Ok tt.

Definition _check_index_and_previous_hash (self : BlockChain) (block : Block)
  : result unit :=
  latest_block ← get_latest_block self;
  if bool_decide (index latest_block ≠ index block - 1)
  then Raise (Blockchain (ChainContinuityError (index block)))
  else if bool_decide (current_hash latest_block ≠ previous_hash block)
  then Raise (Blockchain (ChainContinuityError (index block)))
  else Ok tt.

(** The update of the dict [payers] for one transaction:
    [payers[source] += amount + fee], or the first entry of the source. *)
Definition charge (payers : gmap string Z) (t : Transaction)
  : gmap string Z :=
  match payers !! source t with
  | Some v => <[source t := v + (amount t + fee t)]> payers
  | None => <[source t := amount t + fee t]> payers
  end.

(** The first loop of [_check_transactions_and_block_reward], carrying
    the dict [payers] and [reward_amount]. *)
Fixpoint check_transactions_loop (self : BlockChain) (i : Z)
    (txs : list Transaction) (payers : gmap string Z) (reward_amount : Z)
  : result (gmap string Z * Z) :=
  match txs with
  | [] => Ok (payers, reward_amount)
  | t :: rest =>
      if truthy (find_duplicate_transactions self (tx_hash t))
      then Raise (Blockchain (InvalidTransactions i))
      else if negb (verify t)
      then Raise (Blockchain (InvalidTransactions i))
      else
        check_transactions_loop self i rest (charge payers t)
                                (reward_amount + fee t)
  end.

(** The loop over the keys of [payers]: every failure raises the same
    exception, so the order of the keys does not show in the result. *)
Definition payers_overspend (self : BlockChain) (payers : gmap string Z)
  : bool :=
  existsb (fun kv => get_balance self kv.1 <? kv.2) (map_to_list payers).

Definition _check_transactions_and_block_reward (self : BlockChain)
    (block : Block) : result unit :=
  let reward_amount := get_reward self (index block) in
'(payers, reward_amount) ←
    check_transactions_loop self (index block)
      (removelast (transactions block)) ∅ reward_amount;
  if payers_overspend self payers
  then Raise (Blockchain (InvalidTransactions (index block)))
  else
    match last (transactions block) with
    | None => Raise IndexError
    | Some reward_transaction =>
        if bool_decide (amount reward_transaction ≠ reward_amount)
           || bool_decide (source reward_transaction ≠ "0")
        then Raise (Blockchain (InvalidTransactions (index block)))
        else Ok tt
    end.

(** The [try] body of [validate_block]. *)
Definition validate_block_checks (self : BlockChain) (block : Block)
  : result unit :=
  if index block =? 0 then _check_genesis_block self block
  else
    _check_hash_and_hash_pattern self block;;
    _check_index_and_previous_hash self block;;
    _check_transactions_and_block_reward self block.

(** [except BlockchainException]: anything else escapes. *)
Definition validate_block (self : BlockChain) (block : Block) : result bool :=
  match validate_block_checks self block with
  | Ok _ => Ok true
  | Raise (Blockchain _) => Ok false
  | Raise e => Raise e
  end.

Definition add_block (block : Block) (self : BlockChain)
  : result bool * BlockChain :=
  match validate_block self block with
  | Ok true =>
      (Ok true, {| blocks := blocks self ++ [block];
                   pending_transactions := pending_transactions self |})
  | r => (r, self)
  end.

(** [transaction in self.pending_transactions] compares with [==]; an
    entry that is [None] equals no transaction. *)
Definition validate_transaction (self : BlockChain)
    (transaction : Transaction) : bool :=
  if bool_decide (Some transaction ∈ pending_transactions self) then false
  else if truthy (find_duplicate_transactions self (tx_hash transaction))
  then false
  else if negb (verify transaction) then false
  else
    let balance := get_balance self (source transaction) in
    if balance <? amount transaction + fee transaction then false
    else true.

Definition push_pending_transaction (transaction : Transaction)
    (self : BlockChain) : bool * BlockChain :=
  if validate_transaction self transaction
  then (true, {| blocks := blocks self;
                 pending_transactions :=
                   pending_transactions self ++ [Some transaction] |})
  else (false, self).


(** [BlockChain.__init__]: the return value of [add_block] is dropped,
    a fault of the interpreter aborts the construction. *)
Fixpoint add_blocks (bs : list Block) (self : BlockChain)
  : result BlockChain :=
  match bs with
  | [] => Ok self
  | block :: rest =>
      match add_block block self with
      | (Ok _, self') => add_blocks rest self'
      | (Raise e, _) => Raise e
      end
  end.

Definition __init__ (bs : list Block) : result BlockChain :=
  let self := {| blocks := []; pending_transactions := [] |} in
  match bs with
  | [] => add_blocks [_get_genesis_block] self
  | _ => add_blocks bs self
  end.

(** The chain states a program can get to: a new object before its
    first block, then successful [add_block] and
    [push_pending_transaction] calls. *)
Inductive reachable : BlockChain → Prop :=
| reachable_new :
    reachable {| blocks := []; pending_transactions := [] |}
| reachable_add_block self block self' :
    reachable self →
    add_block block self = (Ok true, self') →
    reachable self'
| reachable_push self transaction self' :
    reachable self →
    push_pending_transaction transaction self = (true, self') →
    reachable self'.

End Chain.

(** ** The remaining methods *)

(** Python indexing [l[i]]: a negative index counts from the end, an
    index outside [-len, len) raises [IndexError]. *)
Definition py_index {A} (l : list A) (i : Z) : result A :=
  let n := Z.of_nat (length l) in
  let position := if i <? 0 then n + i else i in
  if (position <? 0) || (n <=? position) then Raise IndexError
  else
    match l !! Z.to_nat position with
    | Some x => Ok x
    | None => Raise IndexError
    end.

(** [get_block_by_index]: [None] above the last position, otherwise
    [self.blocks[index]]. *)
Definition get_block_by_index (self : BlockChain) (i : Z)
  : result (option Block) :=
  if Z.of_nat (length (blocks self)) - 1 <? i then Ok None
  else block ← py_index (blocks self) i; Ok (Some block).

(** The loop of [remove_pending_transaction] over
    [enumerate(self.pending_transactions)]: the position of the first
    entry with the hash; reading [tx_hash] of [None] is a fault. *)
Fixpoint find_pending (pending : list (option Transaction)) (i : nat)
    (transaction_hash : string) : result (option nat) :=
  match pending with
  | [] => Ok None
  | None :: _ => Raise AttributeError
  | Some t :: rest =>
      if bool_decide (tx_hash t = transaction_hash) then Ok (Some i)
      else find_pending rest (S i) transaction_hash
  end.

(** [remove_pending_transaction]: [pop(i)] at the position found. *)
Definition remove_pending_transaction (transaction_hash : string)
    (self : BlockChain) : result bool * BlockChain :=
  match find_pending (pending_transactions self) 0 transaction_hash with
  | Ok (Some i) =>
      (Ok true, {| blocks := blocks self;
                   pending_transactions :=
                     delete i (pending_transactions self) |})
  | Ok None => (Ok false, self)
  | Raise e => (Raise e, self)
  end.

Section Calls.

Variable verify : Transaction → bool.
Variable calculate_tx_hash : string → string → Z → Z → Z → string → string.
Variable calculate_block_hash : Z → list Transaction → string → Z → Z → string.
Variable default_nonce : Z.

(** One call of a method that writes to the chain state, whatever it
    returns: a rejected or faulting call leaves the state as it was. *)
Inductive api_step : BlockChain → BlockChain → Prop :=
| step_add_block block self r self' :
    add_block verify calculate_tx_hash calculate_block_hash default_nonce
              block self = (r, self') →
    api_step self self'
| step_push transaction self r self' :
    push_pending_transaction verify transaction self = (r, self') →
    api_step self self'
| step_remove transaction_hash self r self' :
    remove_pending_transaction transaction_hash self = (r, self') →
    api_step self self'.

(** The states of a chain object over its life: from the empty lists
    the constructor starts with, any number of calls. *)
Definition api_reachable (self : BlockChain) : Prop :=
  rtc api_step {| blocks := []; pending_transactions := [] |} self.

End Calls.

(** ** Vocabulary of the specification

    The words the specification uses for the ledger, stated on their
    own so that the code can be compared with them. *)

(** All confirmed transactions, in chain order. *)
Definition confirmed_transactions (self : BlockChain) : list Transaction :=
  blocks self ≫= transactions.

(** An identity hash is confirmed when some transaction of some block
    carries it. *)
Definition confirmed (self : BlockChain) (h : string) : Prop :=
  h ∈ tx_hash <$> confirmed_transactions self.

(** The hash occurs in no block whose index is [0]. *)
Definition outside_index0 (self : BlockChain) (h : string) : Prop :=
  ∀ b, b ∈ blocks self → index b = 0 → h ∉ tx_hash <$> transactions b.

(** The debit/credit rule of the ledger for one transaction. *)
Definition ledger_delta (address : string) (t : Transaction) : Z :=
  (if bool_decide (source t = address) then - (amount t + fee t) else 0)
  + (if bool_decide (destination t = address) then amount t else 0).

(** Replaying a sequence of transactions from a starting balance. *)
Definition replay (address : string) (txs : list Transaction) (start : Z) : Z :=
  fold_left (fun balance t => balance + ledger_delta address t) txs start.

Definition total_debit (address : string) (txs : list Transaction) : Z :=
  foldr (fun t acc =>
           (if bool_decide (source t = address) then amount t + fee t else 0)
           + acc) 0 txs.

Definition total_credit (address : string) (txs : list Transaction) : Z :=
  foldr (fun t acc =>
           (if bool_decide (destination t = address) then amount t else 0)
           + acc) 0 txs.

Definition total_fees (txs : list Transaction) : Z :=
  foldr (fun t acc => fee t + acc) 0 txs.

(** The sum of a quantity over a list of addresses. *)
Definition sum_over (f : string → Z) (addresses : list string) : Z :=
  foldr (fun a acc => f a + acc) 0 addresses.

(** The first [d] characters of [h] are all the zero character. *)
Definition leading_zeros (d : nat) (h : string) : Prop :=
  ∀ i : nat, (i < d)%nat → String.get i h = Some "0"%char.

(** The entries of the pool in front of its first hole. *)
Fixpoint before_first_hole (pending : list (option Transaction))
  : list Transaction :=
  match pending with
  | Some t :: rest => t :: before_first_hole rest
  | _ => []
  end.

(** The entries of the pool that are not holes. *)
Definition without_holes (pending : list (option Transaction))
  : list Transaction :=
  omap id pending.

(** Keep the first entry of every identity hash not seen before. *)
Fixpoint first_of_each_hash (seen : list string) (txs : list Transaction)
  : list Transaction :=
  match txs with
  | [] => []
  | t :: rest =>
      if bool_decide (tx_hash t ∈ seen) then first_of_each_hash seen rest
      else t :: first_of_each_hash (seen ++ [tx_hash t]) rest
  end.

#[global] Instance confirmed_dec self h : Decision (confirmed self h).
Proof. unfold confirmed. apply _. Defined.

(** A pool entry the template builder is meant to take: not confirmed
    on the chain, and its signature verifies. *)
Definition admissible (verify : Transaction → bool) (self : BlockChain)
    (t : Transaction) : Prop :=
  ¬ confirmed self (tx_hash t) ∧ verify t = true.

#[global] Instance admissible_dec verify self t :
  Decision (admissible verify self t).
Proof. unfold admissible. apply _. Defined.

(** Scanning a pool in order: the admissible entries, the first of each
    identity hash, up to the cap. *)
Definition selection (verify : Transaction → bool) (self : BlockChain)
    (pool : list Transaction) : list Transaction :=
  take (Z.to_nat MAX_TRANSACTIONS_PER_BLOCK)
       (first_of_each_hash [] (filter (admissible verify self) pool)).

(** What the loops of the code test on one transaction: the value of
    [find_duplicate_transactions] is false and the signature verifies. *)
Definition passes (verify : Transaction → bool) (self : BlockChain)
    (t : Transaction) : Prop :=
  truthy (find_duplicate_transactions self (tx_hash t)) = false
  ∧ verify t = true.

#[global] Instance passes_dec verify self t : Decision (passes verify self t).
Proof. unfold passes. apply _. Defined.

(** No source of the listed transactions spends more than its confirmed
    balance, its debits being summed over the list. *)
Definition funded (self : BlockChain) (txs : list Transaction) : Prop :=
  ∀ s, s ∈ source <$> txs → total_debit s txs <= get_balance self s.

(** ** A concrete collaborator and sample chains

    A transparent stand-in for the cryptographic collaborator, used to
    evaluate the chain on explicit inputs: a signature is the signer's
    address behind a fixed prefix, a digest lists the digested fields. *)

Definition sample_verify (t : Transaction) : bool :=
  bool_decide (signature t = String.append "signed:" (source t)).

Definition sample_tx_hash (src dst : string) (amt f ts : Z) (sig : string)
  : string :=
  String.concat ":" ["tx"; src; dst; pretty amt; pretty f; pretty ts; sig].

Definition sample_block_hash (i : Z) (txs : list Transaction) (prev : string)
    (ts n : Z) : string :=
  String.concat ":"
    ("block" :: pretty i :: prev :: pretty ts :: pretty n :: (tx_hash <$> txs)).

Definition sample_genesis : Block :=
  _get_genesis_block sample_tx_hash sample_block_hash 0.

Definition address_one : string :=
  "032b72046d335b5318a672763338b08b9642225189ab3f0cba777622cfee0fc07b".

Definition address_two : string :=
  "02f846677f65911f140a42af8fe7c1e5cbc7d148c44057ce49ee0cd0a72b21df4f".

(** The chain right after [BlockChain()]: only the genesis block. *)
Definition fresh_chain : BlockChain :=
  {| blocks := [sample_genesis]; pending_transactions := [] |}.

(** A signed payment of 5 (fee 1) from the first genesis address. *)
Definition payment : Transaction :=
  new_Transaction sample_tx_hash address_one "alice" 5 1 100
                  (String.append "signed:" address_one).


(** A signed payment whose [tx_hash] attribute is the identity hash of
    the first genesis transaction. *)
Definition genesis_replay : Transaction :=
  {| source := address_one; destination := "alice"; amount := 5; fee := 1;
     timestamp := 100; signature := String.append "signed:" address_one;
     tx_hash := sample_tx_hash "0" address_one 10 0 0 "" |}.

Definition sample_reward (amt ts : Z) : Transaction :=
  new_Transaction sample_tx_hash "0" "miner" amt 0 ts "0".

(** A mined block: the nonce and the hash are the mining collaborator's. *)
Definition mined (i : Z) (txs : list Transaction) (prev : string) (ts : Z)
    (h : string) : Block :=
  {| index := i; transactions := txs; previous_hash := prev;
     block_timestamp := ts; nonce := 7; current_hash := h |}.

Definition block_one : Block :=
  mined 1 [payment; sample_reward 11 200] (current_hash sample_genesis) 200
        "000000a1".

Definition block_one_replay : Block :=
  mined 1 [genesis_replay; sample_reward 11 200] (current_hash sample_genesis)
        200 "000000b1".

(** A payment with a negative amount, paid for by its fee. *)
Definition negative_payment : Transaction :=
  new_Transaction sample_tx_hash address_one "victim" (-5) 5 100
                  (String.append "signed:" address_one).

Definition block_one_negative : Block :=
  mined 1 [negative_payment; sample_reward 15 200]
        (current_hash sample_genesis) 200 "000000c1".

Definition extended_chain : BlockChain :=
  {| blocks := [sample_genesis; block_one]; pending_transactions := [] |}.

(** The fresh chain after [payment] has been admitted. *)
Definition pending_chain : BlockChain :=
  {| blocks := [sample_genesis]; pending_transactions := [Some payment] |}.

(** A pool with a hole in front of [payment]. *)
Definition hole_chain : BlockChain :=
  {| blocks := [sample_genesis];
     pending_transactions := [None; Some payment] |}.

(** A block whose hash has five leading zero characters only. *)
Definition block_one_weak : Block :=
  mined 1 [payment; sample_reward 11 200] (current_hash sample_genesis) 200
        "00000a01".

(** A block that passes the proof of work and names a wrong predecessor. *)
Definition block_one_detached : Block :=
  mined 1 [payment; sample_reward 11 200] "elsewhere" 200 "000000d1".

(** A block of index 0 that is not the genesis block. *)
Definition other_genesis : Block :=
  mined 0 [sample_reward 10 0] "" 0 "000000e1".

(** A second signed payment from the first genesis address, of its
    whole balance. *)
Definition payment_two : Transaction :=
  new_Transaction sample_tx_hash address_one "bob" 9 1 110
                  (String.append "signed:" address_one).

(** The pool after [payment] and [payment_two]. *)
Definition crowded_chain : BlockChain :=
  {| blocks := [sample_genesis];
     pending_transactions := [Some payment; Some payment_two] |}.

(** The template over the pool of [pending_chain], as it comes back
    from mining. *)
Definition mined_template : Block :=
  mined 1 [payment; sample_reward 11 300] (current_hash sample_genesis) 300
        "000000f1".

(** Six leading zero characters of a literal hash, position by position. *)
Ltac six_leading_zeros :=
  let i := fresh "i" in
  let Hi := fresh "Hi" in
  intros i Hi;
  change (Z.to_nat MINIMUM_HASH_DIFFICULTY) with 6%nat in Hi;
  do 6 (destruct i as [|i]; [reflexivity|]); lia.

(** * Properties *)

(** ** The ledger *)

Section Ledger.

Lemma apply_transaction_delta address balance t :
  apply_transaction address balance t = balance + ledger_delta address t.
Proof.
  unfold apply_transaction, ledger_delta.
  repeat case_bool_decide; lia.
Qed.

Lemma fold_apply_replay address txs balance :
  fold_left (apply_transaction address) txs balance
  = replay address txs balance.
Proof.
  unfold replay. revert balance.
  induction txs as [|t txs IH]; intros balance; simpl; [done|].
  by rewrite IH, apply_transaction_delta.
Qed.

Lemma replay_app address txs1 txs2 balance :
  replay address (txs1 ++ txs2) balance
  = replay address txs2 (replay address txs1 balance).
Proof. unfold replay. by rewrite fold_left_app. Qed.

Lemma replay_totals address txs balance :
  replay address txs balance
  = balance - total_debit address txs + total_credit address txs.
Proof.
  unfold replay. revert balance.
  induction txs as [|t txs IH]; intros balance; simpl; [lia|].
  rewrite IH. unfold ledger_delta. repeat case_bool_decide; lia.
Qed.

Lemma blocks_fold_replay address bs balance :
  fold_left
    (fun balance block =>
       fold_left (apply_transaction address) (transactions block) balance)
    bs balance
  = replay address (bs ≫= transactions) balance.
Proof.
  revert balance.
  induction bs as [|b bs IH]; intros balance; [done|].
  rewrite bind_cons, replay_app. cbn [fold_left].
  by rewrite IH, fold_apply_replay.
Qed.

Lemma get_balance_replay self address :
  get_balance self address
  = replay address (confirmed_transactions self) 0.
Proof. apply blocks_fold_replay. Qed.

Lemma get_balance_snoc bs pend b address :
  get_balance {| blocks := bs ++ [b]; pending_transactions := pend |} address
  = replay address (transactions b)
      (get_balance {| blocks := bs; pending_transactions := pend |} address).
Proof.
  rewrite !get_balance_replay. unfold confirmed_transactions.
  cbn [blocks]. rewrite bind_app, replay_app, bind_singleton. done.
Qed.

Lemma balance_pending_loop_replay address txs balance :
  balance_pending_loop address (Some <$> txs) balance
  = Ok (replay address txs balance).
Proof.
  revert balance.
  induction txs as [|t txs IH]; intros balance; simpl; [done|].
  by rewrite IH, apply_transaction_delta.
Qed.

Lemma total_credit_nonneg address txs :
  Forall (fun t => 0 <= amount t) txs → 0 <= total_credit address txs.
Proof.
  induction 1 as [|t txs Ht _ IH]; simpl; [lia|].
  case_bool_decide; lia.
Qed.

Lemma total_debit_app address txs1 txs2 :
  total_debit address (txs1 ++ txs2)
  = total_debit address txs1 + total_debit address txs2.
Proof. induction txs1 as [|t txs1 IH]; simpl; lia. Qed.

Lemma total_debit_absent address txs :
  address ∉ source <$> txs → total_debit address txs = 0.
Proof.
  induction txs as [|t txs IH]; simpl; [done|].
  rewrite not_elem_of_cons. intros [Hne Hnot].
  rewrite bool_decide_eq_false_2 by done. rewrite IH by done. lia.
Qed.

End Ledger.

(** ** Replay detection *)

Section Replay.

Lemma existsb_hash h txs :
  existsb (fun t => bool_decide (tx_hash t = h)) txs = true
  ↔ h ∈ tx_hash <$> txs.
Proof.
  rewrite existsb_exists, list_elem_of_fmap. split.
  - intros (t & Hin & Heq). apply bool_decide_eq_true in Heq.
    exists t. split; [done | by apply list_elem_of_In].
  - intros (t & -> & Hin). exists t.
    split; [by apply list_elem_of_In | by apply bool_decide_eq_true].
Qed.

Lemma find_in_blocks_Some bs h i :
  find_in_blocks bs h = Some i →
  ∃ b, b ∈ bs ∧ index b = i ∧ h ∈ tx_hash <$> transactions b.
Proof.
  induction bs as [|b bs IH]; simpl; [done|].
  destruct (existsb _ (transactions b)) eqn:Hex.
  - intros [= <-]. exists b. rewrite elem_of_cons.
    apply existsb_hash in Hex. auto.
  - intros Hfind. destruct (IH Hfind) as (b' & Hin & Hidx & Hh).
    exists b'. rewrite elem_of_cons. auto.
Qed.

Lemma find_in_blocks_None bs h :
  find_in_blocks bs h = None
  ↔ ∀ b, b ∈ bs → h ∉ tx_hash <$> transactions b.
Proof.
  induction bs as [|b bs IH]; simpl.
  - split; [|done]. intros _ b Hb. by apply elem_of_nil in Hb.
  - destruct (existsb _ (transactions b)) eqn:Hex.
    + split; [done|]. intros Hall. apply existsb_hash in Hex.
      destruct (Hall b); [apply elem_of_cons; auto | done].
    + rewrite IH. split.
      * intros Hall b' [->|Hb']%elem_of_cons; [|by apply Hall].
        intros Hin%existsb_hash. congruence.
      * intros Hall b' Hb'. apply Hall, elem_of_cons. auto.
Qed.

Lemma confirmed_block self h :
  confirmed self h
  ↔ ∃ b, b ∈ blocks self ∧ h ∈ tx_hash <$> transactions b.
Proof.
  unfold confirmed, confirmed_transactions.
  rewrite list_elem_of_fmap. split.
  - intros (t & -> & (b & Ht & Hb)%list_elem_of_bind).
    exists b. split; [done|]. by apply list_elem_of_fmap_2.
  - intros (b & Hb & (t & -> & Ht)%list_elem_of_fmap).
    exists t. split; [done|]. apply list_elem_of_bind. eauto.
Qed.

Lemma truthy_find_confirmed self h :
  truthy (find_duplicate_transactions self h) = true → confirmed self h.
Proof.
  unfold find_duplicate_transactions.
  destruct (find_in_blocks (blocks self) h) as [i|] eqn:Hfind; [|done].
  intros _. apply confirmed_block.
  destruct (find_in_blocks_Some _ _ _ Hfind) as (b & ? & ? & ?). eauto.
Qed.

Lemma truthy_find_iff self h :
  outside_index0 self h →
  truthy (find_duplicate_transactions self h) = true ↔ confirmed self h.
Proof.
  intros Hout. split; [apply truthy_find_confirmed|].
  intros (b & Hb & Hh)%confirmed_block.
  unfold find_duplicate_transactions.
  destruct (find_in_blocks (blocks self) h) as [i|] eqn:Hfind.
  - destruct (find_in_blocks_Some _ _ _ Hfind) as (b' & Hb' & Hidx & Hh').
    simpl. apply negb_true_iff, Z.eqb_neq. intros ->.
    by apply (Hout b').
  - exfalso. by apply (proj1 (find_in_blocks_None _ _) Hfind b).
Qed.

End Replay.

(** ** The transaction and reward check *)

Section TransactionCheck.

Variable verify : Transaction → bool.



Lemma check_loop_ok self i txs payers r :
  Forall (passes verify self) txs →
  check_transactions_loop verify self i txs payers r
  = Ok (foldl charge payers txs, r + total_fees txs).
Proof.
  intros Hall. revert payers r.
  induction Hall as [|t txs [Hdup Hver] _ IH]; intros payers r; simpl.
  - by rewrite Z.add_0_r.
  - rewrite Hdup, Hver. simpl. rewrite IH. do 2 f_equal; lia.
Qed.

Lemma check_loop_raise self i txs payers r :
  ¬ Forall (passes verify self) txs →
  check_transactions_loop verify self i txs payers r
  = Raise (Blockchain (InvalidTransactions i)).
Proof.
  revert payers r.
  induction txs as [|t txs IH]; intros payers r Hnot; simpl.
  - destruct Hnot. constructor.
  - destruct (truthy _) eqn:Hdup; [done|].
    destruct (verify t) eqn:Hver; [|done]. simpl.
    apply IH. intros Hall. apply Hnot. by constructor.
Qed.

Lemma check_loop_inv self i txs payers r payers' r' :
  check_transactions_loop verify self i txs payers r = Ok (payers', r') →
  Forall (passes verify self) txs
  ∧ payers' = foldl charge payers txs ∧ r' = r + total_fees txs.
Proof.
  revert payers r.
  induction txs as [|t txs IH]; intros payers r; simpl.
  - intros [= <- <-]. repeat split; [constructor | lia].
  - destruct (truthy _) eqn:Hdup; [done|].
    destruct (verify t) eqn:Hver; [|done]. simpl.
    intros (Hall & -> & ->)%IH. repeat split; [by constructor | lia].
Qed.

Lemma charge_lookup txs (payers : gmap string Z) address :
  foldl charge payers txs !! address
  = match payers !! address with
    | Some v => Some (v + total_debit address txs)
    | None =>
        if bool_decide (address ∈ source <$> txs)
        then Some (total_debit address txs)
        else None
    end.
Proof.
  revert payers.
  induction txs as [|t txs IH]; intros payers; simpl.
  - destruct (payers !! address); [f_equal; lia | done].
  - rewrite IH. unfold charge.
    destruct (decide (source t = address)) as [->|Hne].
    + rewrite (bool_decide_eq_true_2 (address = address)) by done.
      destruct (payers !! address) as [v|] eqn:Hp.
      * rewrite lookup_insert_eq. f_equal; lia.
      * rewrite lookup_insert_eq.
        rewrite bool_decide_eq_true_2 by (apply elem_of_cons; auto).
        f_equal; lia.
    + rewrite (bool_decide_eq_false_2 (source t = address)) by done.
      assert (Hcons : address ∈ source t :: (source <$> txs)
                      ↔ address ∈ source <$> txs).
      { rewrite elem_of_cons. intuition congruence. }
      rewrite (bool_decide_ext _ _ Hcons).
      destruct (payers !! source t) as [w|];
        rewrite lookup_insert_ne by done;
        destruct (payers !! address); f_equal; lia.
Qed.

Lemma payers_overspend_false self (payers : gmap string Z) :
  payers_overspend self payers = false
  ↔ ∀ k v, payers !! k = Some v → v <= get_balance self k.
Proof.
  unfold payers_overspend. rewrite <- not_true_iff_false, existsb_exists.
  split.
  - intros Hnone k v Hkv.
    destruct (Z.ltb_spec (get_balance self k) v) as [Hlt|]; [|done].
    destruct Hnone. exists (k, v). split.
    + by apply list_elem_of_In, elem_of_map_to_list.
    + simpl. by apply Z.ltb_lt.
  - intros Hall ([k v] & Hin & Hlt). simpl in Hlt.
    apply list_elem_of_In, elem_of_map_to_list in Hin.
    apply Z.ltb_lt in Hlt. specialize (Hall k v Hin). lia.
Qed.

Lemma payers_overspend_funded self txs :
  payers_overspend self (foldl charge ∅ txs) = false ↔ funded self txs.
Proof.
  rewrite payers_overspend_false. unfold funded. split.
  - intros Hall s Hs. apply Hall.
    rewrite charge_lookup, lookup_empty.
    by rewrite bool_decide_eq_true_2.
  - intros Hall k v. rewrite charge_lookup, lookup_empty.
    case_bool_decide; [|done]. intros [= <-]. by apply Hall.
Qed.

(** The check on a block whose transaction list is [front ++ [lst]]. *)
Lemma check_transactions_ok_iff self block front lst :
  transactions block = front ++ [lst] →
  _check_transactions_and_block_reward verify self block = Ok tt
  ↔ Forall (passes verify self) front
    ∧ funded self front
    ∧ amount lst = get_reward self (index block) + total_fees front
    ∧ source lst = "0".
Proof.
  intros Htx. unfold _check_transactions_and_block_reward.
  rewrite Htx, removelast_last, last_snoc.
  destruct (check_transactions_loop _ _ _ _ _ _) as [[payers r]|e] eqn:Hloop.
  - apply check_loop_inv in Hloop as (Hall & -> & ->). simpl.
    destruct (payers_overspend _ _) eqn:Hover.
    + split; [done|]. intros (_ & Hf & _).
      apply payers_overspend_funded in Hf. congruence.
    + apply payers_overspend_funded in Hover.
      repeat case_bool_decide; simpl; intuition congruence.
  - simpl. split; [done|]. intros (Hall & _).
    by rewrite (check_loop_ok _ _ _ _ _ Hall) in Hloop.
Qed.

Lemma check_transactions_raises self block front lst :
  transactions block = front ++ [lst] →
  _check_transactions_and_block_reward verify self block ≠ Ok tt →
  _check_transactions_and_block_reward verify self block
  = Raise (Blockchain (InvalidTransactions (index block))).
Proof.
  intros Htx. unfold _check_transactions_and_block_reward.
  rewrite Htx, removelast_last, last_snoc.
  destruct (decide (Forall (passes verify self) front)) as [Hall|Hnot].
  - rewrite (check_loop_ok _ _ _ _ _ Hall). simpl.
    destruct (payers_overspend _ _); [done|].
    destruct (_ || _); [done|]. by intros [].
  - by rewrite (check_loop_raise _ _ _ _ _ Hnot).
Qed.

Lemma check_transactions_empty self block :
  transactions block = [] →
  _check_transactions_and_block_reward verify self block = Raise IndexError.
Proof.
  intros Htx. unfold _check_transactions_and_block_reward.
  rewrite Htx. simpl. unfold payers_overspend.
  by rewrite map_to_list_empty.
Qed.

End TransactionCheck.

(** ** The proof-of-work pattern *)

Section HashPattern.

Lemma slice_to_nat (d : nat) h : slice_to (Z.of_nat d) h = substring 0 d h.
Proof.
  unfold slice_to. rewrite (proj2 (Z.leb_le 0 (Z.of_nat d))) by lia.
  by rewrite Nat2Z.id.
Qed.

Lemma leading_zeros_cons d c h :
  leading_zeros (S d) (String c h) ↔ c = "0"%char ∧ leading_zeros d h.
Proof.
  unfold leading_zeros. split.
  - intros Hall. split.
    + specialize (Hall 0%nat). simpl in Hall.
      assert (Some c = Some "0"%char) as [= ->] by (apply Hall; lia). done.
    + intros i Hi. apply (Hall (S i)). lia.
  - intros [-> Hall] [|i] Hi; [done|]. simpl. apply Hall. lia.
Qed.

Lemma count_prefix_bound d h :
  0 <= str_count "0" (substring 0 d h) <= Z.of_nat d.
Proof.
  revert h. induction d as [|d IH]; intros [|c h]; simpl; try lia.
  specialize (IH h). case_bool_decide; lia.
Qed.

Lemma count_prefix_full d h :
  str_count "0" (substring 0 d h) = Z.of_nat d ↔ leading_zeros d h.
Proof.
  revert h. induction d as [|d IH]; intros [|c h].
  - simpl. split; [|done]. intros _ i Hi. lia.
  - simpl. split; [|done]. intros _ i Hi. lia.
  - simpl. split; [lia|]. intros Hall.
    specialize (Hall 0%nat). simpl in Hall.
    assert (None = Some "0"%char) by (apply Hall; lia). done.
  - rewrite leading_zeros_cons, <- IH.
    cbn [substring str_count].
    pose proof (count_prefix_bound d h).
    case_bool_decide; [split; [intros; split; [done|lia] | lia]|].
    split; [lia | by intros [? _]].
Qed.

Lemma hash_pattern_iff (d : nat) h :
  (str_count "0" (slice_to (Z.of_nat d) h) <? Z.of_nat d) = true
  ↔ ¬ leading_zeros d h.
Proof.
  rewrite slice_to_nat, Z.ltb_lt, <- count_prefix_full.
  pose proof (count_prefix_bound d h). lia.
Qed.

Lemma check_hash_Ok self block :
  _check_hash_and_hash_pattern self block = Ok tt
  ↔ leading_zeros (Z.to_nat (calculate_hash_dificulty self None))
                  (current_hash block).
Proof.
  unfold _check_hash_and_hash_pattern, calculate_hash_dificulty.
  change MINIMUM_HASH_DIFFICULTY with (Z.of_nat 6).
  rewrite Nat2Z.id, slice_to_nat, <- count_prefix_full.
  pose proof (count_prefix_bound 6 (current_hash block)).
  destruct (_ <? _) eqn:Hlt.
  - apply Z.ltb_lt in Hlt. split; [done | lia].
  - apply Z.ltb_ge in Hlt. split; [lia | done].
Qed.

Lemma check_hash_cases self block :
  _check_hash_and_hash_pattern self block = Ok tt
  ∨ _check_hash_and_hash_pattern self block
    = Raise (Blockchain (InvalidHash (index block))).
Proof.
  unfold _check_hash_and_hash_pattern. destruct (_ <? _); auto.
Qed.

End HashPattern.

(** ** Block validation *)

Section Validation.

Variable verify : Transaction → bool.
Variable calculate_tx_hash :
  string → string → Z → Z → Z → string → string.
Variable calculate_block_hash :
  Z → list Transaction → string → Z → Z → string.
Variable default_nonce : Z.

Local Abbreviation genesis :=
  (_get_genesis_block calculate_tx_hash calculate_block_hash default_nonce).
Local Abbreviation checks :=
  (validate_block_checks verify calculate_tx_hash calculate_block_hash
                         default_nonce).
Local Abbreviation validate :=
  (validate_block verify calculate_tx_hash calculate_block_hash
                  default_nonce).
Local Abbreviation add :=
  (add_block verify calculate_tx_hash calculate_block_hash default_nonce).

(** The chain continues [latest] with [block]. *)
Local Abbreviation continues latest block :=
  (index block = index latest + 1
   ∧ previous_hash block = current_hash latest).

Lemma check_index_spec self latest block :
  last (blocks self) = Some latest →
  _check_index_and_previous_hash self block
  = if bool_decide (continues latest block) then Ok tt
    else Raise (Blockchain (ChainContinuityError (index block))).
Proof.
  intros Hlast. unfold _check_index_and_previous_hash, get_latest_block.
  rewrite Hlast. cbn [mbind result_bind].
  rewrite !bool_decide_not, bool_decide_and.
  rewrite (bool_decide_ext (index latest = index block - 1)
             (index block = index latest + 1)) by lia.
  rewrite (bool_decide_ext (current_hash latest = previous_hash block)
             (previous_hash block = current_hash latest))
    by (split; congruence).
  by destruct (bool_decide _), (bool_decide _).
Qed.

Lemma check_transactions_cases self block :
  _check_transactions_and_block_reward verify self block = Ok tt
  ∨ _check_transactions_and_block_reward verify self block
    = Raise (Blockchain (InvalidTransactions (index block)))
  ∨ _check_transactions_and_block_reward verify self block
    = Raise IndexError.
Proof.
  destruct (last (transactions block)) as [lst|] eqn:Hlast.
  - apply last_Some in Hlast as [front Htx].
    destruct (_check_transactions_and_block_reward verify self block)
      as [[]|e] eqn:Hres; [by left|].
    right; left. rewrite <- Hres.
    eapply check_transactions_raises; [done | congruence].
  - apply last_None in Hlast. right; right.
    by apply check_transactions_empty.
Qed.

Lemma checks_genesis self block :
  index block = 0 →
  checks self block
  = _check_genesis_block calculate_tx_hash calculate_block_hash
                         default_nonce self block.
Proof.
  intros Hidx. unfold validate_block_checks. by rewrite Hidx.
Qed.

Lemma checks_chained self latest block :
  last (blocks self) = Some latest →
  index block ≠ 0 →
  checks self block
  = (_check_hash_and_hash_pattern self block;;
     if bool_decide (continues latest block)
     then _check_transactions_and_block_reward verify self block
     else Raise (Blockchain (ChainContinuityError (index block)))).
Proof.
  intros Hlast Hidx. unfold validate_block_checks.
  rewrite (proj2 (Z.eqb_neq _ _) Hidx).
  rewrite (check_index_spec _ _ _ Hlast).
  destruct (_check_hash_and_hash_pattern self block); [|done]. simpl.
  by case_bool_decide.
Qed.

Lemma validate_of_checks self block :
  validate self block
  = match checks self block with
    | Ok _ => Ok true
    | Raise (Blockchain _) => Ok false
    | Raise e => Raise e
    end.
Proof. done. Qed.

Lemma add_block_accepts self block :
  checks self block = Ok tt →
  add block self
  = (Ok true, {| blocks := blocks self ++ [block];
                 pending_transactions := pending_transactions self |}).
Proof.
  intros Hok. unfold add_block.
  by rewrite validate_of_checks, Hok.
Qed.

Lemma add_block_inv self block self' :
  add block self = (Ok true, self') →
  checks self block = Ok tt
  ∧ self' = {| blocks := blocks self ++ [block];
               pending_transactions := pending_transactions self |}.
Proof.
  unfold add_block. rewrite validate_of_checks.
  destruct (checks self block) as [[]|[e| |]]; simpl; intros [= <-]; done.
Qed.

Lemma check_genesis_accepts self :
  _check_genesis_block calculate_tx_hash calculate_block_hash default_nonce
                       self genesis = Ok tt.
Proof.
  unfold _check_genesis_block. by rewrite bool_decide_eq_false_2 by auto.
Qed.

(** C3: a chained block is rejected with [InvalidHash] exactly when the
    first [d] characters of its hash are not all zero, [d] being the
    hash difficulty; and for every [d], the test of the code (fewer
    than [d] zero characters among the first [d]) is the same as "not
    all of the [d] leading characters are zero". *)
Theorem hash_pattern_rejection (d : nat) (h : string) self block :
  index block ≠ 0 →
  ((str_count "0" (slice_to (Z.of_nat d) h) <? Z.of_nat d) = true
   ↔ ¬ leading_zeros d h)
  ∧ (validate_block_checks verify calculate_tx_hash calculate_block_hash
                           default_nonce self block
     = Raise (Blockchain (InvalidHash (index block)))
     ↔ ¬ leading_zeros (Z.to_nat (calculate_hash_dificulty self None))
                       (current_hash block))
  ∧ (¬ leading_zeros (Z.to_nat (calculate_hash_dificulty self None))
                     (current_hash block) →
     validate_block verify calculate_tx_hash calculate_block_hash
                    default_nonce self block = Ok false).
Proof.
  intros Hidx. split; [apply hash_pattern_iff|].
  rewrite <- check_hash_Ok.
  assert (Hiff : checks self block
                 = Raise (Blockchain (InvalidHash (index block)))
                 ↔ _check_hash_and_hash_pattern self block ≠ Ok tt).
  { unfold validate_block_checks.
    rewrite (proj2 (Z.eqb_neq _ _) Hidx).
    destruct (check_hash_cases self block) as [-> | ->]; simpl.
    - split; [|done].
      unfold _check_index_and_previous_hash, get_latest_block.
      destruct (last (blocks self)); simpl; [|done].
      repeat case_bool_decide; simpl; try done.
      destruct (check_transactions_cases self block) as [-> | [-> | ->]];
        done.
    - split; done. }
  split; [done|].
  intros Hbad. rewrite validate_of_checks.
  by rewrite (proj2 Hiff Hbad).
Qed.

(** C4: on a chain whose last block is [latest], a chained block that
    passes the proof-of-work check is rejected with
    [ChainContinuityError] unless its index is [latest.index + 1] and
    its previous hash is [latest.current_hash]; the checks run in the
    order proof of work, continuity, transactions and reward. *)
Theorem continuity_rejection self latest block :
  last (blocks self) = Some latest →
  index block ≠ 0 →
  validate_block_checks verify calculate_tx_hash calculate_block_hash
                        default_nonce self block
  = (_check_hash_and_hash_pattern self block;;
     if bool_decide (index block = index latest + 1
                     ∧ previous_hash block = current_hash latest)
     then _check_transactions_and_block_reward verify self block
     else Raise (Blockchain (ChainContinuityError (index block))))
  ∧ (_check_hash_and_hash_pattern self block = Ok tt →
     (validate_block_checks verify calculate_tx_hash calculate_block_hash
                            default_nonce self block
      = Raise (Blockchain (ChainContinuityError (index block)))
      ↔ ¬ (index block = index latest + 1
           ∧ previous_hash block = current_hash latest))
     ∧ (¬ (index block = index latest + 1
           ∧ previous_hash block = current_hash latest) →
        validate_block verify calculate_tx_hash calculate_block_hash
                       default_nonce self block = Ok false)).
Proof.
  intros Hlast Hidx.
  pose proof (checks_chained _ _ _ Hlast Hidx) as Heq.
  split; [exact Heq|].
  intros Hpow. rewrite validate_of_checks, Heq, Hpow. simpl.
  case_bool_decide as Hc; split; try done.
  - split; [|done].
    destruct (check_transactions_cases self block) as [-> | [-> | ->]];
      done.
Qed.

(** C5: a block of index 0 is accepted exactly when it is structurally
    identical to the pinned genesis block, any other is rejected with
    [GenesisBlockMismatch]; adding the genesis block to a new chain
    succeeds, which is what the constructor does. *)
Theorem genesis_check self block :
  index block = 0 →
  (validate_block verify calculate_tx_hash calculate_block_hash
                  default_nonce self block = Ok true
   ↔ block = _get_genesis_block calculate_tx_hash calculate_block_hash
                                default_nonce)
  ∧ (block ≠ _get_genesis_block calculate_tx_hash calculate_block_hash
                                default_nonce →
     validate_block_checks verify calculate_tx_hash calculate_block_hash
                           default_nonce self block
     = Raise (Blockchain (GenesisBlockMismatch (index block)))
     ∧ validate_block verify calculate_tx_hash calculate_block_hash
                      default_nonce self block = Ok false)
  ∧ add_block verify calculate_tx_hash calculate_block_hash default_nonce
              (_get_genesis_block calculate_tx_hash calculate_block_hash
                                  default_nonce)
              {| blocks := []; pending_transactions := [] |}
    = (Ok true,
       {| blocks := [_get_genesis_block calculate_tx_hash
                                        calculate_block_hash default_nonce];
          pending_transactions := [] |})
  ∧ __init__ verify calculate_tx_hash calculate_block_hash default_nonce []
    = Ok {| blocks := [_get_genesis_block calculate_tx_hash
                                          calculate_block_hash default_nonce];
            pending_transactions := [] |}.
Proof.
  intros Hidx.
  assert (Hadd : add genesis {| blocks := []; pending_transactions := [] |}
    = (Ok true, {| blocks := [genesis]; pending_transactions := [] |})).
  { apply add_block_accepts. rewrite checks_genesis by done.
    apply check_genesis_accepts. }
  rewrite validate_of_checks, checks_genesis by done.
  unfold _check_genesis_block.
  case_bool_decide as Hne; simpl.
  - repeat split; try done. unfold __init__, add_blocks. by rewrite Hadd.
  - repeat split; try done. unfold __init__, add_blocks. by rewrite Hadd.
Qed.

(** C10: whatever the chain, the genesis block is accepted again: the
    branch for index 0 only compares with the pinned block and does
    not look at the chain, so [add_block] appends a second genesis
    block to a chain that already has blocks, and the block at that
    position does not carry its position as index. *)
Theorem genesis_accepted_again self :
  (∀ self' block, index block = 0 →
     validate_block_checks verify calculate_tx_hash calculate_block_hash
                           default_nonce self block
     = validate_block_checks verify calculate_tx_hash calculate_block_hash
                             default_nonce self' block)
  ∧ validate_block verify calculate_tx_hash calculate_block_hash
                   default_nonce self
                   (_get_genesis_block calculate_tx_hash calculate_block_hash
                                       default_nonce)
    = Ok true
  ∧ add_block verify calculate_tx_hash calculate_block_hash default_nonce
              (_get_genesis_block calculate_tx_hash calculate_block_hash
                                  default_nonce) self
    = (Ok true,
       {| blocks :=
            blocks self
            ++ [_get_genesis_block calculate_tx_hash calculate_block_hash
                                   default_nonce];
          pending_transactions := pending_transactions self |})
  ∧ (blocks self ≠ [] →
     ∃ (i : nat) b,
       (0 < i)%nat
       ∧ blocks (add_block verify calculate_tx_hash calculate_block_hash
                           default_nonce
                           (_get_genesis_block calculate_tx_hash
                                               calculate_block_hash
                                               default_nonce) self).2 !! i
         = Some b
       ∧ index b ≠ Z.of_nat i).
Proof.
  assert (Hok : checks self genesis = Ok tt).
  { rewrite checks_genesis by done. apply check_genesis_accepts. }
  split; [|split; [|split]].
  - intros self' block Hidx. by rewrite !checks_genesis.
  - by rewrite validate_of_checks, Hok.
  - by apply add_block_accepts.
  - intros Hne. rewrite (add_block_accepts _ _ Hok). simpl.
    exists (length (blocks self)), genesis. split; [|split].
    + destruct (blocks self); [done | simpl; lia].
    + by rewrite list_lookup_middle.
    + simpl. destruct (blocks self); [done | simpl; lia].
Qed.

End Validation.

(** ** Balances *)

Section Balances.

Variable calculate_tx_hash :
  string → string → Z → Z → Z → string → string.
Variable calculate_block_hash :
  Z → list Transaction → string → Z → Z → string.
Variable default_nonce : Z.

Local Abbreviation genesis :=
  (_get_genesis_block calculate_tx_hash calculate_block_hash default_nonce).

Lemma replay_unmentioned address txs balance :
  address ∉ source <$> txs →
  address ∉ destination <$> txs →
  replay address txs balance = balance.
Proof.
  unfold replay. revert balance.
  induction txs as [|t txs IH]; intros balance; simpl; [done|].
  rewrite !not_elem_of_cons. intros [Hs Hsrc] [Hd Hdst].
  rewrite IH by done. unfold ledger_delta.
  rewrite !bool_decide_eq_false_2 by done. lia.
Qed.

(** C6: the balance of an address is the replay of all confirmed
    transactions in chain order, debiting [amount + fee] where the
    address is the source and crediting [amount] where it is the
    destination; the pending balance continues the replay over the
    pending pool in its order; on the chain that holds only the
    genesis block each credited address has 10 and an address that
    is not mentioned has 0. *)
Theorem balance_is_replay self address :
  get_balance self address = replay address (confirmed_transactions self) 0
  ∧ (∀ txs, pending_transactions self = Some <$> txs →
       get_balance_pending self address
       = Ok (replay address txs (get_balance self address)))
  ∧ get_balance {| blocks := [_get_genesis_block calculate_tx_hash
                                            calculate_block_hash
                                            default_nonce];
                 pending_transactions := [] |}
                "032b72046d335b5318a672763338b08b9642225189ab3f0cba777622cfee0fc07b"
    = 10
  ∧ get_balance {| blocks := [_get_genesis_block calculate_tx_hash
                                            calculate_block_hash
                                            default_nonce];
                 pending_transactions := [] |}
                "02f846677f65911f140a42af8fe7c1e5cbc7d148c44057ce49ee0cd0a72b21df4f"
    = 10
  ∧ (address ∉ source <$> confirmed_transactions self →
     address ∉ destination <$> confirmed_transactions self →
     get_balance self address = 0).
Proof.
  split; [apply get_balance_replay|].
  split.
  { intros txs Hpend. unfold get_balance_pending. rewrite Hpend.
    apply balance_pending_loop_replay. }
  split; [reflexivity|]. split; [reflexivity|].
  intros Hsrc Hdst. rewrite get_balance_replay.
  by apply replay_unmentioned.
Qed.

End Balances.

(** ** Admission to the pending pool *)

Section Admission.

Variable verify : Transaction → bool.

Lemma validate_transaction_true self t :
  validate_transaction verify self t = true
  ↔ (Some t ∉ pending_transactions self)
    ∧ truthy (find_duplicate_transactions self (tx_hash t)) = false
    ∧ verify t = true
    ∧ amount t + fee t <= get_balance self (source t).
Proof.
  unfold validate_transaction.
  case_bool_decide as Hin; [split; [done | by intros [? _]]|].
  destruct (truthy _); [split; [done | by intros (_ & ? & _)]|].
  destruct (verify t); simpl; [|split; [done | by intros (_ & _ & ? & _)]].
  destruct (Z.ltb_spec (get_balance self (source t)) (amount t + fee t)).
  - split; [done|]. intros (_ & _ & _ & ?). lia.
  - split; [|done]. intros _. repeat split; done.
Qed.


End Admission.

(** ** The block template builder *)

Section Template.

Variable verify : Transaction → bool.
Variable calculate_tx_hash :
  string → string → Z → Z → Z → string → string.
Variable calculate_block_hash :
  Z → list Transaction → string → Z → Z → string.
Variable default_nonce : Z.

Local Abbreviation cap := (Z.to_nat MAX_TRANSACTIONS_PER_BLOCK).

Lemma select_pending_spec self pending txs fees :
  (length txs < cap)%nat →
  select_pending verify self pending txs fees
  = let extra :=
      take (cap - length txs)
           (first_of_each_hash (tx_hash <$> txs)
              (filter (passes verify self) (before_first_hole pending))) in
    (txs ++ extra, fees + total_fees extra).
Proof.
  revert txs fees.
  induction pending as [|[p|] rest IH]; intros txs fees Hlen.
  - cbn. by rewrite take_nil, app_nil_r, Z.add_0_r.
  - cbn [select_pending before_first_hole]. rewrite filter_cons.
    destruct (decide (passes verify self p)) as [[Hdup Hver]|Hnot].
    + rewrite Hdup, Hver. cbn [negb first_of_each_hash].
      case_bool_decide as Hseen; [by rewrite IH|].
      destruct (cap - length txs)%nat as [|n] eqn:Hn; [lia|].
      cbn [take]. rewrite length_app. cbn [length].
      destruct (Z.leb_spec MAX_TRANSACTIONS_PER_BLOCK
                  (Z.of_nat (length txs + 1))) as [Hfull|Hroom].
      * assert (n = 0%nat) as -> by lia.
        rewrite take_0. cbn. f_equal. lia.
      * rewrite IH by (rewrite length_app; cbn; lia).
        cbn zeta. rewrite length_app, fmap_app. cbn [length fmap list_fmap].
        replace (cap - (length txs + 1))%nat with n by lia.
        rewrite <- app_assoc. cbn. f_equal. unfold total_fees. lia.
    + case_bool_decide; [by rewrite IH|].
      destruct (truthy _) eqn:Hdup; [by rewrite IH|].
      destruct (verify p) eqn:Hver; [by destruct Hnot | by rewrite IH].
  - cbn. by rewrite take_nil, app_nil_r, Z.add_0_r.
Qed.

Lemma first_of_each_hash_subseteq seen txs t :
  t ∈ first_of_each_hash seen txs → t ∈ txs.
Proof.
  revert seen. induction txs as [|u txs IH]; intros seen; simpl;
    [by intros ?%elem_of_nil|].
  case_bool_decide.
  - intros Hin%IH. by apply list_elem_of_further.
  - intros [->|Hin%IH]%elem_of_cons; [apply list_elem_of_here|].
    by apply list_elem_of_further.
Qed.

Lemma before_first_hole_pending pending t :
  t ∈ before_first_hole pending → Some t ∈ pending.
Proof.
  induction pending as [|[p|] rest IH]; simpl;
    [by intros ?%elem_of_nil | | by intros ?%elem_of_nil].
  intros [->|Hin%IH]%elem_of_cons; [apply list_elem_of_here|].
  by apply list_elem_of_further.
Qed.

Lemma filter_ext_in {A} (P Q : A → Prop) `{!∀ x, Decision (P x)}
    `{!∀ x, Decision (Q x)} (l : list A) :
  (∀ x, x ∈ l → P x ↔ Q x) → filter P l = filter Q l.
Proof.
  induction l as [|x l IH]; intros Hext; [done|].
  rewrite !filter_cons.
  rewrite IH by (intros y Hy; apply Hext; by apply list_elem_of_further).
  pose proof (Hext x (list_elem_of_here _ _)) as Hx.
  repeat case_decide; tauto.
Qed.

Lemma passes_admissible self t :
  outside_index0 self (tx_hash t) →
  passes verify self t ↔ admissible verify self t.
Proof.
  intros Hout. unfold passes, admissible.
  rewrite <- (truthy_find_iff _ _ Hout).
  destruct (truthy _); intuition congruence.
Qed.

Lemma get_minable_block_eq self latest reward_address now :
  last (blocks self) = Some latest →
  let selected :=
    take cap (first_of_each_hash []
                (filter (passes verify self)
                   (before_first_hole (pending_transactions self)))) in
  get_minable_block verify calculate_tx_hash calculate_block_hash
                    default_nonce reward_address now self
  = (Ok (new_Block calculate_block_hash default_nonce (index latest + 1)
           (selected
            ++ [new_Transaction calculate_tx_hash "0" reward_address
                  (get_reward self (index latest + 1) + total_fees selected)
                  0 now "0"])
           (current_hash latest) now None),
     self).
Proof.
  intros Hlast selected. unfold get_minable_block, get_latest_block.
  rewrite Hlast. cbn [mbind result_bind].
  rewrite select_pending_spec
    by (unfold MAX_TRANSACTIONS_PER_BLOCK; simpl; lia).
  cbn zeta. cbn [length app]. rewrite Nat.sub_0_r, Z.add_0_l.
  done.
Qed.

(** C7, as the code has it: when no entry in front of the first hole
    has its identity hash in a block of index 0, the builder returns a
    block and leaves the chain as it was, and the transactions in
    front of the reward are the scan, in order, of the pool entries in
    front of the first hole: confirmed entries and entries whose
    signature fails are skipped, of equal identity hashes the first is
    taken, and the scan ends at the cap of 50. *)
Theorem template_selection self latest reward_address now :
  last (blocks self) = Some latest →
  (∀ t, t ∈ before_first_hole (pending_transactions self) →
        outside_index0 self (tx_hash t)) →
  ∃ block,
    get_minable_block verify calculate_tx_hash calculate_block_hash
                      default_nonce reward_address now self
    = (Ok block, self)
    ∧ removelast (transactions block)
      = selection verify self
          (before_first_hole (pending_transactions self)).
Proof.
  intros Hlast Hout. eexists. split.
  - by apply get_minable_block_eq.
  - cbn [transactions new_Block]. rewrite removelast_last.
    unfold selection. do 2 f_equal.
    apply filter_ext_in. intros t Ht. by apply passes_admissible, Hout.
Qed.

(** C8: on a chain with a last block the builder returns a block whose
    transactions are at most 50 entries of the pool followed by one
    reward transaction, from source "0" to the reward address, of
    amount [get_reward(new index)] plus the fees of the entries in
    front of it; the chain state it returns is the one it was given. *)
Theorem template_shape self latest reward_address now :
  last (blocks self) = Some latest →
  ∃ block selected reward,
    get_minable_block verify calculate_tx_hash calculate_block_hash
                      default_nonce reward_address now self
    = (Ok block, self)
    ∧ index block = index latest + 1
    ∧ previous_hash block = current_hash latest
    ∧ transactions block = selected ++ [reward]
    ∧ Z.of_nat (length selected) <= MAX_TRANSACTIONS_PER_BLOCK
    ∧ (∀ t, t ∈ selected → Some t ∈ pending_transactions self)
    ∧ reward
      = new_Transaction calculate_tx_hash "0" reward_address
          (get_reward self (index block) + total_fees selected) 0 now "0"
    ∧ source reward = "0"
    ∧ amount reward = get_reward self (index block) + total_fees selected.
Proof.
  intros Hlast. do 3 eexists.
  split; [by apply get_minable_block_eq|].
  cbn [index previous_hash transactions new_Block].
  repeat split.
  - rewrite length_take. unfold MAX_TRANSACTIONS_PER_BLOCK. lia.
  - intros t Ht. apply before_first_hole_pending.
    apply elem_of_take in Ht as (i & Ht & _).
    apply list_elem_of_lookup_2 in Ht.
    apply first_of_each_hash_subseteq in Ht.
    by apply list_elem_of_filter in Ht as [_ ?].
Qed.

End Template.

(** ** Balances on reachable chains *)

Section Solvency.

Variable verify : Transaction → bool.
Variable calculate_tx_hash :
  string → string → Z → Z → Z → string → string.
Variable calculate_block_hash :
  Z → list Transaction → string → Z → Z → string.
Variable default_nonce : Z.

Local Abbreviation checks :=
  (validate_block_checks verify calculate_tx_hash calculate_block_hash
                         default_nonce).

(** What the transaction check has established once a chained block
    is accepted. *)
Lemma accepted_block_transactions self block :
  index block ≠ 0 →
  checks self block = Ok tt →
  ∃ front lst,
    transactions block = front ++ [lst]
    ∧ Forall (passes verify self) front
    ∧ funded self front
    ∧ amount lst = get_reward self (index block) + total_fees front
    ∧ source lst = "0".
Proof.
  intros Hidx. unfold validate_block_checks.
  rewrite (proj2 (Z.eqb_neq _ _) Hidx).
  destruct (_check_hash_and_hash_pattern self block); [|done].
  destruct (_check_index_and_previous_hash self block); [|done].
  cbn [mbind result_bind]. intros Hok.
  destruct (last (transactions block)) as [lst|] eqn:Hlast.
  - apply last_Some in Hlast as [front Htx]. exists front, lst.
    split; [done|]. by apply (check_transactions_ok_iff verify self block).
  - apply last_None in Hlast.
    by rewrite (check_transactions_empty verify self block Hlast) in Hok.
Qed.

Lemma accepted_block_debit self block address :
  checks self block = Ok tt →
  address ≠ "0" →
  0 <= get_balance self address →
  total_debit address (transactions block) <= get_balance self address.
Proof.
  intros Hok Hne Hbal.
  destruct (decide (index block = 0)) as [Hidx|Hidx].
  - unfold validate_block_checks in Hok. rewrite Hidx in Hok.
    cbn [Z.eqb] in Hok. unfold _check_genesis_block in Hok.
    case_bool_decide as Hgen; [done|].
    rewrite Hgen. cbn.
    rewrite !bool_decide_eq_false_2 by done. lia.
  - destruct (accepted_block_transactions _ _ Hidx Hok)
      as (front & lst & -> & _ & Hfunded & _ & Hsrc).
    rewrite total_debit_app. cbn.
    rewrite Hsrc, (bool_decide_eq_false_2 ("0" = address)) by done.
    destruct (decide (address ∈ source <$> front)) as [Hin|Hnot].
    + specialize (Hfunded address Hin). lia.
    + rewrite total_debit_absent by done. lia.
Qed.

(** C9, as the code has it: on a chain reached by successful
    [add_block] and admission calls whose confirmed transactions all
    have a non-negative amount, every address other than the coinbase
    source "0" has a non-negative replayed balance, by the checks of
    block validation. *)
Theorem balances_nonnegative self address :
  reachable verify calculate_tx_hash calculate_block_hash default_nonce
            self →
  Forall (fun t => 0 <= amount t) (confirmed_transactions self) →
  address ≠ "0" →
  0 <= get_balance self address.
Proof.
  intros Hreach. induction Hreach as
    [|self block self' Hreach IH Hadd|self t self' Hreach IH Hpush];
    intros Hamounts Hne.
  - done.
  - apply add_block_inv in Hadd as [Hok ->].
    unfold confirmed_transactions in Hamounts. cbn [blocks] in Hamounts.
    rewrite bind_app, bind_singleton in Hamounts.
    apply Forall_app in Hamounts as [Hold Hnew].
    specialize (IH Hold Hne).
    destruct self as [bs pend]. rewrite get_balance_snoc, replay_totals.
    pose proof (accepted_block_debit _ _ _ Hok Hne IH).
    pose proof (total_credit_nonneg address _ Hnew).
    cbn [blocks pending_transactions] in *. lia.
  - unfold push_pending_transaction in Hpush.
    destruct (validate_transaction verify self t); [|done].
    injection Hpush as <-. by apply IH.
Qed.

(** The rejections of the transaction and reward check that hold on
    every chain: a transaction the replay lookup flags, a signature
    that fails, a source whose summed debits exceed its confirmed
    balance, a last transaction that is not the reward. *)
Lemma transaction_check_rejections self block front lst :
  transactions block = front ++ [lst] →
  (∃ t, t ∈ front
        ∧ truthy (find_duplicate_transactions self (tx_hash t)) = true)
  ∨ (∃ t, t ∈ front ∧ verify t = false)
  ∨ (∃ s, s ∈ source <$> front
          ∧ get_balance self s < total_debit s front)
  ∨ ¬ (source lst = "0"
       ∧ amount lst = get_reward self (index block) + total_fees front) →
  _check_transactions_and_block_reward verify self block
  = Raise (Blockchain (InvalidTransactions (index block))).
Proof.
  intros Htx Hbad. apply (check_transactions_raises _ _ _ _ _ Htx).
  rewrite (check_transactions_ok_iff _ _ _ _ _ Htx).
  intros (Hall & Hfunded & Hamt & Hsrc).
  rewrite Forall_forall in Hall.
  destruct Hbad as [(t & Ht & Hdup)|[(t & Ht & Hver)|[(s & Hs & Hlt)|Hrew]]].
  - destruct (Hall t Ht) as [Hok _]. congruence.
  - destruct (Hall t Ht) as [_ Hok]. congruence.
  - specialize (Hfunded s Hs). lia.
  - by apply Hrew.
Qed.

End Solvency.

(** * The properties on the sample chains *)

(** A hash with five leading zeros is rejected at difficulty 6. *)
Lemma hash_pattern_rejection_witness :
  index block_one_weak ≠ 0
  ∧ validate_block sample_verify sample_tx_hash sample_block_hash 0
                   fresh_chain block_one_weak = Ok false.
Proof.
  assert (Hidx : index block_one_weak ≠ 0) by (by vm_compute).
  split; [exact Hidx|].
  apply (hash_pattern_rejection sample_verify sample_tx_hash sample_block_hash
           0 6 "00000a01" fresh_chain block_one_weak Hidx).
  intros Hzeros. specialize (Hzeros 5%nat). vm_compute in Hzeros.
  assert (Some "a"%char = Some "0"%char) by (apply Hzeros; lia). done.
Defined.

(** A block with a valid hash and a wrong predecessor is rejected. *)
Lemma continuity_rejection_witness :
  last (blocks fresh_chain) = Some sample_genesis
  ∧ index block_one_detached ≠ 0
  ∧ validate_block sample_verify sample_tx_hash sample_block_hash 0
                   fresh_chain block_one_detached = Ok false.
Proof.
  assert (Hlast : last (blocks fresh_chain) = Some sample_genesis)
    by reflexivity.
  assert (Hidx : index block_one_detached ≠ 0) by (by vm_compute).
  split; [exact Hlast|]. split; [exact Hidx|].
  apply (continuity_rejection sample_verify sample_tx_hash sample_block_hash
           0 fresh_chain sample_genesis block_one_detached Hlast Hidx).
  - by vm_compute.
  - intros [_ Hprev]. by vm_compute in Hprev.
Defined.

(** Another block of index 0 is rejected. *)
Lemma genesis_check_witness :
  index other_genesis = 0
  ∧ validate_block sample_verify sample_tx_hash sample_block_hash 0
                   fresh_chain other_genesis = Ok false.
Proof.
  assert (Hidx : index other_genesis = 0) by reflexivity.
  split; [exact Hidx|].
  apply (genesis_check sample_verify sample_tx_hash sample_block_hash 0
           fresh_chain other_genesis Hidx).
  by vm_compute.
Defined.

(** The genesis block is appended behind block 1. *)
Lemma genesis_accepted_again_witness :
  blocks extended_chain ≠ []
  ∧ ∃ (i : nat) b,
      (0 < i)%nat
      ∧ blocks (add_block sample_verify sample_tx_hash sample_block_hash 0
                          sample_genesis extended_chain).2 !! i = Some b
      ∧ index b ≠ Z.of_nat i.
Proof.
  assert (Hne : blocks extended_chain ≠ []) by (by vm_compute).
  split; [exact Hne|].
  apply (genesis_accepted_again sample_verify sample_tx_hash
           sample_block_hash 0 extended_chain). exact Hne.
Defined.

(** The pending balance after [payment], and an unmentioned address. *)
Lemma balance_is_replay_witness :
  pending_transactions pending_chain = Some <$> [payment]
  ∧ get_balance_pending pending_chain address_one
    = Ok (replay address_one [payment] (get_balance pending_chain address_one))
  ∧ ("carol" ∉ source <$> confirmed_transactions fresh_chain)
  ∧ ("carol" ∉ destination <$> confirmed_transactions fresh_chain)
  ∧ get_balance fresh_chain "carol" = 0.
Proof.
  assert (Hpend : pending_transactions pending_chain = Some <$> [payment])
    by reflexivity.
  assert (Hsrc : "carol" ∉ source <$> confirmed_transactions fresh_chain).
  { apply (bool_decide_unpack _). by vm_compute. }
  assert (Hdst : "carol" ∉ destination <$> confirmed_transactions fresh_chain).
  { apply (bool_decide_unpack _). by vm_compute. }
  split; [exact Hpend|].
  split.
  - apply (balance_is_replay sample_tx_hash sample_block_hash 0
             pending_chain address_one). exact Hpend.
  - split; [exact Hsrc|]. split; [exact Hdst|].
    apply (balance_is_replay sample_tx_hash sample_block_hash 0
             fresh_chain "carol"); [exact Hsrc | exact Hdst].
Defined.

(** The identity hash of [payment] is not in the genesis block. *)
Lemma outside_index0_payment : outside_index0 fresh_chain (tx_hash payment).
Proof.
  intros b Hb _. apply list_elem_of_singleton in Hb as ->.
  apply (bool_decide_unpack _). by vm_compute.
Defined.


(** The template built over the pool that holds [payment]. *)
Lemma template_selection_witness :
  last (blocks pending_chain) = Some sample_genesis
  ∧ (∀ t, t ∈ before_first_hole (pending_transactions pending_chain) →
          outside_index0 pending_chain (tx_hash t))
  ∧ ∃ block,
      get_minable_block sample_verify sample_tx_hash sample_block_hash 0
                        "miner" 300 pending_chain
      = (Ok block, pending_chain)
      ∧ removelast (transactions block)
        = selection sample_verify pending_chain
            (before_first_hole (pending_transactions pending_chain)).
Proof.
  assert (Hlast : last (blocks pending_chain) = Some sample_genesis)
    by reflexivity.
  assert (Hout : ∀ t,
             t ∈ before_first_hole (pending_transactions pending_chain) →
             outside_index0 pending_chain (tx_hash t)).
  { intros t Ht. apply list_elem_of_singleton in Ht as ->.
    exact outside_index0_payment. }
  split; [exact Hlast|]. split; [exact Hout|].
  exact (template_selection sample_verify sample_tx_hash sample_block_hash 0
           pending_chain sample_genesis "miner" 300 Hlast Hout).
Defined.

(** The shape of the template built over the pool that holds [payment]. *)
Lemma template_shape_witness :
  last (blocks pending_chain) = Some sample_genesis
  ∧ ∃ block selected reward,
      get_minable_block sample_verify sample_tx_hash sample_block_hash 0
                        "miner" 300 pending_chain
      = (Ok block, pending_chain)
      ∧ index block = index sample_genesis + 1
      ∧ previous_hash block = current_hash sample_genesis
      ∧ transactions block = selected ++ [reward]
      ∧ Z.of_nat (length selected) <= MAX_TRANSACTIONS_PER_BLOCK
      ∧ (∀ t, t ∈ selected → Some t ∈ pending_transactions pending_chain)
      ∧ reward
        = new_Transaction sample_tx_hash "0" "miner"
            (get_reward pending_chain (index block) + total_fees selected)
            0 300 "0"
      ∧ source reward = "0"
      ∧ amount reward
        = get_reward pending_chain (index block) + total_fees selected.
Proof.
  assert (Hlast : last (blocks pending_chain) = Some sample_genesis)
    by reflexivity.
  split; [exact Hlast|].
  exact (template_shape sample_verify sample_tx_hash sample_block_hash 0
           pending_chain sample_genesis "miner" 300 Hlast).
Defined.

(** The chain of genesis and block 1 is built by two [add_block] calls. *)
Lemma extended_chain_reachable :
  reachable sample_verify sample_tx_hash sample_block_hash 0 extended_chain.
Proof.
  apply (reachable_add_block _ _ _ _ fresh_chain block_one);
    [|by vm_compute].
  apply (reachable_add_block _ _ _ _
           {| blocks := []; pending_transactions := [] |} sample_genesis);
    [|by vm_compute].
  apply reachable_new.
Defined.

(** The first genesis address after it has paid in block 1. *)
Lemma balances_nonnegative_witness :
  reachable sample_verify sample_tx_hash sample_block_hash 0 extended_chain
  ∧ Forall (fun t => 0 <= amount t) (confirmed_transactions extended_chain)
  ∧ address_one ≠ "0"
  ∧ 0 <= get_balance extended_chain address_one.
Proof.
  assert (Hamt : Forall (fun t => 0 <= amount t)
                        (confirmed_transactions extended_chain)).
  { apply (bool_decide_unpack _). by vm_compute. }
  assert (Hne : address_one ≠ "0") by (by vm_compute).
  split; [exact extended_chain_reachable|].
  split; [exact Hamt|]. split; [exact Hne|].
  exact (balances_nonnegative sample_verify sample_tx_hash sample_block_hash 0
           extended_chain address_one extended_chain_reachable Hamt Hne).
Defined.

(** ** Inputs on which the code departs from the stated properties *)

(** C1: a block whose first transaction carries the identity hash of a
    confirmed genesis transaction passes the transaction and reward
    check and the whole validation: the replay lookup returns the index
    of the genesis block, [0], which the check reads as false. *)
Theorem genesis_replay_not_rejected :
  confirmed fresh_chain (tx_hash genesis_replay)
  ∧ find_duplicate_transactions fresh_chain (tx_hash genesis_replay) = Some 0
  ∧ _check_transactions_and_block_reward sample_verify fresh_chain
                                         block_one_replay = Ok tt
  ∧ validate_block sample_verify sample_tx_hash sample_block_hash 0
                   fresh_chain block_one_replay = Ok true.
Proof.
  split; [apply (bool_decide_unpack _); by vm_compute|].
  split; [by vm_compute|]. split; by vm_compute.
Qed.


(** Against C7 as worded: the scan ends at a hole, so a valid entry behind
    it is not selected, while scanning the whole pool and skipping holes
    selects it. *)
Lemma template_hole_counterexample :
  ∃ block,
    (get_minable_block sample_verify sample_tx_hash sample_block_hash 0
                       "miner" 300 hole_chain).1 = Ok block
    ∧ removelast (transactions block) = []
    ∧ selection sample_verify hole_chain
        (without_holes (pending_transactions hole_chain)) = [payment].
Proof.
  eexists. split; [by vm_compute|]. split; by vm_compute.
Qed.

(** Against C9 as worded: on the chain that holds only the genesis block
    the coinbase source "0" has been debited twice. *)
Lemma balance_negative_counterexample :
  reachable sample_verify sample_tx_hash sample_block_hash 0 fresh_chain
  ∧ get_balance fresh_chain "0" = -20.
Proof.
  split; [|by vm_compute].
  apply (reachable_add_block _ _ _ _
           {| blocks := []; pending_transactions := [] |} sample_genesis);
    [apply reachable_new | by vm_compute].
Qed.

(** A negative amount, which block validation does not look at, debits
    the destination: the reason for the condition on amounts above. *)
Lemma negative_amount_debits_destination :
  add_block sample_verify sample_tx_hash sample_block_hash 0
            block_one_negative fresh_chain
  = (Ok true, {| blocks := [sample_genesis; block_one_negative];
                 pending_transactions := [] |})
  ∧ get_balance {| blocks := [sample_genesis; block_one_negative];
                   pending_transactions := [] |} "victim" = -5.
Proof. split; by vm_compute. Qed.

(** * Further properties of the chain object *)

(** ** Withdrawing a pending transaction *)

Section Removal.

Lemma find_pending_first l1 t l2 i h :
  Forall (fun e => ∃ u, e = Some u ∧ tx_hash u ≠ h) l1 →
  tx_hash t = h →
  find_pending (l1 ++ Some t :: l2) i h = Ok (Some (i + length l1)%nat).
Proof.
  intros Hl1 Ht. revert i.
  induction Hl1 as [|e l1 (u & -> & Hu) _ IH]; intros i; simpl.
  - rewrite bool_decide_eq_true_2 by done. do 2 f_equal. lia.
  - rewrite bool_decide_eq_false_2 by done. rewrite IH. do 2 f_equal. lia.
Qed.

Lemma find_pending_absent l i h :
  Forall (fun e => ∃ u, e = Some u ∧ tx_hash u ≠ h) l →
  find_pending l i h = Ok None.
Proof.
  intros Hl. revert i.
  induction Hl as [|e l (u & -> & Hu) _ IH]; intros i; simpl; [done|].
  by rewrite bool_decide_eq_false_2.
Qed.

Lemma find_pending_hole l1 l2 i h :
  Forall (fun e => ∃ u, e = Some u ∧ tx_hash u ≠ h) l1 →
  find_pending (l1 ++ None :: l2) i h = Raise AttributeError.
Proof.
  intros Hl1. revert i.
  induction Hl1 as [|e l1 (u & -> & Hu) _ IH]; intros i; simpl; [done|].
  by rewrite bool_decide_eq_false_2.
Qed.

(** The pool splits at the first entry that is a hole or carries the
    hash, if there is one. *)
Lemma pending_split l h :
  Forall (fun e => ∃ u, e = Some u ∧ tx_hash u ≠ h) l
  ∨ ∃ l1 e l2,
      l = l1 ++ e :: l2
      ∧ Forall (fun e => ∃ u, e = Some u ∧ tx_hash u ≠ h) l1
      ∧ (e = None ∨ ∃ t, e = Some t ∧ tx_hash t = h).
Proof.
  induction l as [|e l IH]; [left; constructor|].
  destruct e as [t|].
  - destruct (decide (tx_hash t = h)) as [Heq|Hne].
    + right. exists [], (Some t), l. repeat split; [constructor|]. eauto.
    + destruct IH as [Hall|(l1 & e & l2 & -> & Hl1 & He)].
      * left. constructor; eauto.
      * right. exists (Some t :: l1), e, l2. repeat split; [|done].
        constructor; eauto.
  - right. exists [], None, l. repeat split; [constructor|]. by left.
Qed.

Lemma remove_at_first_match self l1 t l2 h :
  pending_transactions self = l1 ++ Some t :: l2 →
  Forall (fun e => ∃ u, e = Some u ∧ tx_hash u ≠ h) l1 →
  tx_hash t = h →
  remove_pending_transaction h self
  = (Ok true, {| blocks := blocks self; pending_transactions := l1 ++ l2 |}).
Proof.
  intros Hpend Hl1 Ht. unfold remove_pending_transaction.
  rewrite Hpend, (find_pending_first _ _ _ _ _ Hl1 Ht).
  by rewrite Nat.add_0_l, delete_middle.
Qed.

(** X2: on a pool without holes [remove_pending_transaction] never
    raises; it returns true exactly when some entry carries the hash,
    the pool then being one entry shorter, and otherwise returns false
    and leaves the state as it was. *)
Theorem remove_pending_result self txs h :
  pending_transactions self = Some <$> txs →
  (remove_pending_transaction h self).1
  = Ok (bool_decide (h ∈ tx_hash <$> txs))
  ∧ blocks (remove_pending_transaction h self).2 = blocks self
  ∧ (h ∈ tx_hash <$> txs →
     S (length (pending_transactions (remove_pending_transaction h self).2))
     = length txs)
  ∧ (h ∉ tx_hash <$> txs →
     remove_pending_transaction h self = (Ok false, self)).
Proof.
  intros Hpend.
  destruct (pending_split (pending_transactions self) h)
    as [Hall|(l1 & e & l2 & Hsplit & Hl1 & He)].
  - assert (Hnot : h ∉ tx_hash <$> txs).
    { rewrite Hpend in Hall. rewrite list_elem_of_fmap.
      intros (u & -> & Hu). rewrite Forall_forall in Hall.
      destruct (Hall (Some u)) as (u' & [= <-] & Hne);
        [by apply list_elem_of_fmap_2 | done]. }
    unfold remove_pending_transaction.
    rewrite (find_pending_absent _ _ _ Hall). simpl.
    by rewrite bool_decide_eq_false_2.
  - destruct He as [->|(t & -> & Ht)].
    { exfalso. assert (Hin : None ∈ Some <$> txs).
      { rewrite <- Hpend, Hsplit, elem_of_app, elem_of_cons. auto. }
      by apply list_elem_of_fmap in Hin as (? & ? & _). }
    assert (Hin : h ∈ tx_hash <$> txs).
    { assert (Hmem : Some t ∈ Some <$> txs).
      { rewrite <- Hpend, Hsplit, elem_of_app, elem_of_cons. auto. }
      apply list_elem_of_fmap in Hmem as (t' & [= <-] & Ht').
      rewrite <- Ht. by apply list_elem_of_fmap_2. }
    rewrite (remove_at_first_match _ _ _ _ _ Hsplit Hl1 Ht). simpl.
    rewrite bool_decide_eq_true_2 by done.
    repeat split; [|done].
    intros _. rewrite <- (length_fmap Some txs), <- Hpend, Hsplit.
    rewrite !length_app. simpl. lia.
Qed.

Lemma remove_at_hole self l1 l2 h :
  pending_transactions self = l1 ++ None :: l2 →
  Forall (fun e => ∃ u, e = Some u ∧ tx_hash u ≠ h) l1 →
  remove_pending_transaction h self = (Raise AttributeError, self).
Proof.
  intros Hpend Hl1. unfold remove_pending_transaction.
  by rewrite Hpend, (find_pending_hole _ _ _ _ Hl1).
Qed.

Lemma remove_absent self h :
  Forall (fun e => ∃ u, e = Some u ∧ tx_hash u ≠ h)
         (pending_transactions self) →
  remove_pending_transaction h self = (Ok false, self).
Proof.
  intros Hall. unfold remove_pending_transaction.
  by rewrite (find_pending_absent _ _ _ Hall).
Qed.

(** X1: what [remove_pending_transaction] does is decided by the first
    entry of the pool that is a hole or carries the hash. If that entry
    carries the hash, it alone is taken out (the entries around it keep
    their order, the blocks are not touched) and the answer is true; if
    it is a hole, reading its [tx_hash] raises [AttributeError] and
    nothing changes; if there is no such entry, the answer is false and
    nothing changes. *)
Theorem remove_pending_cases self h :
  (∃ l1 t l2,
      pending_transactions self = l1 ++ Some t :: l2
      ∧ Forall (fun e => ∃ u, e = Some u ∧ tx_hash u ≠ h) l1
      ∧ tx_hash t = h
      ∧ remove_pending_transaction h self
        = (Ok true,
           {| blocks := blocks self; pending_transactions := l1 ++ l2 |}))
  ∨ (∃ l1 l2,
        pending_transactions self = l1 ++ None :: l2
        ∧ Forall (fun e => ∃ u, e = Some u ∧ tx_hash u ≠ h) l1
        ∧ remove_pending_transaction h self = (Raise AttributeError, self))
  ∨ (Forall (fun e => ∃ u, e = Some u ∧ tx_hash u ≠ h)
            (pending_transactions self)
     ∧ remove_pending_transaction h self = (Ok false, self)).
Proof.
  destruct (pending_split (pending_transactions self) h)
    as [Hall|(l1 & e & l2 & Hsplit & Hl1 & [->|(t & -> & Ht)])].
  - right; right. split; [done | by apply remove_absent].
  - right; left. exists l1, l2. repeat split; try done.
    by apply remove_at_hole with (l1 := l1) (l2 := l2).
  - left. exists l1, t, l2. repeat split; try done.
    by apply (remove_at_first_match _ _ _ _ _ Hsplit Hl1 Ht).
Qed.

End Removal.

Section RemovalComposition.

Variable verify : Transaction → bool.

Lemma other_hashes txs h :
  h ∉ tx_hash <$> txs →
  Forall (fun e => ∃ u, e = Some u ∧ tx_hash u ≠ h) (Some <$> txs).
Proof.
  intros Hnot. apply Forall_fmap, Forall_forall. intros u Hu. simpl.
  exists u. split; [done|]. intros Heq. apply Hnot. rewrite <- Heq.
  by apply list_elem_of_fmap_2.
Qed.

(** X3: admitting a transaction whose identity hash is new to a pool
    without holes and then withdrawing that hash gives back the state
    from before the admission. *)
Theorem push_then_remove self txs t self' :
  pending_transactions self = Some <$> txs →
  tx_hash t ∉ tx_hash <$> txs →
  push_pending_transaction verify t self = (true, self') →
  remove_pending_transaction (tx_hash t) self' = (Ok true, self).
Proof.
  intros Hpend Hnew Hpush. unfold push_pending_transaction in Hpush.
  destruct (validate_transaction verify self t); [|done].
  injection Hpush as <-.
  rewrite (remove_at_first_match _ (pending_transactions self) t []
             (tx_hash t)); cbn [pending_transactions blocks].
  - rewrite app_nil_r. by destruct self.
  - done.
  - rewrite Hpend. by apply other_hashes.
  - done.
Qed.

(** X4: on a pool without holes in which no two entries share an
    identity hash, a hash that has been withdrawn is gone: withdrawing
    it a second time returns false and changes nothing. *)
Theorem remove_pending_twice self txs h :
  pending_transactions self = Some <$> txs →
  NoDup (tx_hash <$> txs) →
  h ∈ tx_hash <$> txs →
  (remove_pending_transaction h self).1 = Ok true
  ∧ remove_pending_transaction h (remove_pending_transaction h self).2
    = (Ok false, (remove_pending_transaction h self).2).
Proof.
  intros Hpend Hnodup Hin.
  apply list_elem_of_split_l in Hin as (k1 & k2 & Hsplit & Hk1).
  apply fmap_app_inv in Hsplit as (t1 & rest & -> & Hrest & ->).
  symmetry in Hrest.
  apply fmap_cons_inv in Hrest as (t & t2 & -> & -> & ->).
  rewrite fmap_app, fmap_cons in Hnodup.
  apply NoDup_app in Hnodup as (_ & _ & [Ht2 _]%NoDup_cons).
  rewrite fmap_app, fmap_cons in Hpend.
  rewrite (remove_at_first_match _ _ _ _ _ Hpend (other_hashes _ _ Hk1)
             eq_refl).
  split; [done|]. cbn [snd].
  apply remove_absent. cbn [pending_transactions].
  rewrite <- fmap_app. apply other_hashes.
  rewrite fmap_app, elem_of_app. by intros [?|?].
Qed.

End RemovalComposition.

(** ** Lookups in the chain *)

Section Lookups.

(** X5: [get_block_by_index] returns the block at a position from 0 on
    and [None] beyond the last one; a negative index is not rejected
    but counts from the end, so [-1] is the latest block, and an index
    below [-len] raises [IndexError]. *)
Theorem get_block_by_index_bounds self (i : Z) :
  let n := Z.of_nat (length (blocks self)) in
  (0 <= i → get_block_by_index self i = Ok (blocks self !! Z.to_nat i))
  ∧ (- n <= i < 0 →
     get_block_by_index self i = Ok (blocks self !! Z.to_nat (n + i))
     ∧ is_Some (blocks self !! Z.to_nat (n + i)))
  ∧ (i < - n → get_block_by_index self i = Raise IndexError)
  ∧ get_block_by_index self (-1)
    = (block ← get_latest_block self; Ok (Some block)).
Proof.
  intros n. unfold get_block_by_index, py_index. fold n.
  split; [|split; [|split]].
  - intros Hi. destruct (Z.ltb_spec (n - 1) i) as [Hout|Hin].
    + symmetry. f_equal. apply lookup_ge_None. lia.
    + rewrite (proj2 (Z.ltb_ge i 0)) by lia.
      rewrite (proj2 (Z.ltb_ge i 0)) by lia.
      rewrite (proj2 (Z.leb_gt n i)) by lia. cbn [orb].
      destruct (lookup_lt_is_Some_2 (blocks self) (Z.to_nat i)) as [b Hb];
        [lia|]. by rewrite Hb.
  - intros Hi. rewrite (proj2 (Z.ltb_ge (n - 1) i)) by lia.
    rewrite (proj2 (Z.ltb_lt i 0)) by lia.
    rewrite (proj2 (Z.ltb_ge (n + i) 0)) by lia.
    rewrite (proj2 (Z.leb_gt n (n + i))) by lia. cbn [orb].
    destruct (lookup_lt_is_Some_2 (blocks self) (Z.to_nat (n + i)))
      as [b Hb]; [lia|]. rewrite Hb. eauto.
  - intros Hi. rewrite (proj2 (Z.ltb_ge (n - 1) i)) by lia.
    rewrite (proj2 (Z.ltb_lt i 0)) by lia.
    by rewrite (proj2 (Z.ltb_lt (n + i) 0)) by lia.
  - unfold get_latest_block. rewrite last_lookup.
    rewrite (proj2 (Z.ltb_ge (n - 1) (-1))) by lia.
    change (-1 <? 0) with true. cbn match.
    destruct (blocks self) as [|b bs] eqn:Hbs.
    + done.
    + rewrite (proj2 (Z.ltb_ge (n + -1) 0)) by (unfold n; simpl; lia).
      rewrite (proj2 (Z.leb_gt n (n + -1))) by lia. cbn [orb].
      replace (Z.to_nat (n + -1)) with (pred (length (b :: bs)))
        by (unfold n; simpl; lia).
      by destruct ((b :: bs) !! pred (length (b :: bs))).
Qed.

Lemma find_in_blocks_first bs h i :
  find_in_blocks bs h = Some i
  ↔ ∃ bs1 b bs2,
      bs = bs1 ++ b :: bs2
      ∧ (∀ b', b' ∈ bs1 → h ∉ tx_hash <$> transactions b')
      ∧ h ∈ tx_hash <$> transactions b
      ∧ index b = i.
Proof.
  induction bs as [|b bs IH].
  - simpl. split; [done|]. intros (bs1 & b & bs2 & Heq & _).
    by destruct bs1.
  - simpl. destruct (existsb _ (transactions b)) eqn:Hex.
    + apply existsb_hash in Hex. split.
      * intros [= <-]. exists [], b, bs. repeat split; try done.
        intros b' Hb'. by apply elem_of_nil in Hb'.
      * intros ([|b0 bs1] & b1 & bs2 & Heq & Hfirst & Hb1 & Hidx).
        -- injection Heq as <- <-. by rewrite Hidx.
        -- injection Heq as <- ->. destruct (Hfirst b); [|done].
           apply list_elem_of_here.
    + assert (Hnot : h ∉ tx_hash <$> transactions b).
      { intros Hin%existsb_hash. congruence. }
      rewrite IH. split.
      * intros (bs1 & b1 & bs2 & -> & Hfirst & Hb1 & Hidx).
        exists (b :: bs1), b1, bs2. repeat split; try done.
        intros b' [->|Hb']%elem_of_cons; [done | by apply Hfirst].
      * intros ([|b0 bs1] & b1 & bs2 & Heq & Hfirst & Hb1 & Hidx).
        -- injection Heq as <- <-. done.
        -- injection Heq as <- ->. exists bs1, b1, bs2.
           repeat split; try done. intros b' Hb'. apply Hfirst.
           by apply list_elem_of_further.
Qed.

(** X6: [find_duplicate_transactions] returns the index of the first
    block, in chain order, that holds a transaction with the hash, and
    [False] exactly when the hash is not confirmed. *)
Theorem find_duplicate_first_block self h :
  (∀ i, find_duplicate_transactions self h = Some i
        ↔ ∃ bs1 b bs2,
            blocks self = bs1 ++ b :: bs2
            ∧ (∀ b', b' ∈ bs1 → h ∉ tx_hash <$> transactions b')
            ∧ h ∈ tx_hash <$> transactions b
            ∧ index b = i)
  ∧ (find_duplicate_transactions self h = None ↔ ¬ confirmed self h).
Proof.
  unfold find_duplicate_transactions. split.
  - intros i. apply find_in_blocks_first.
  - rewrite find_in_blocks_None, confirmed_block. split.
    + intros Hall (b & Hb & Hh). by apply (Hall b).
    + intros Hnot b Hb Hh. apply Hnot. eauto.
Qed.

End Lookups.

(** ** Validation and the rest of the state *)

Section Frame.

Variable verify : Transaction → bool.
Variable calculate_tx_hash : string → string → Z → Z → Z → string → string.
Variable calculate_block_hash : Z → list Transaction → string → Z → Z → string.
Variable default_nonce : Z.

Lemma get_balance_frame self1 self2 address :
  blocks self1 = blocks self2 →
  get_balance self1 address = get_balance self2 address.
Proof. unfold get_balance. by intros ->. Qed.

Lemma check_loop_frame self1 self2 i txs payers r :
  blocks self1 = blocks self2 →
  check_transactions_loop verify self1 i txs payers r
  = check_transactions_loop verify self2 i txs payers r.
Proof.
  intros Hbs. revert payers r.
  induction txs as [|t txs IH]; intros payers r; simpl; [done|].
  unfold find_duplicate_transactions. rewrite Hbs.
  destruct (truthy _); [done|]. destruct (verify t); simpl; [|done].
  apply IH.
Qed.

Lemma payers_overspend_frame self1 self2 (payers : gmap string Z) :
  blocks self1 = blocks self2 →
  payers_overspend self1 payers = payers_overspend self2 payers.
Proof.
  intros Hbs. destruct (payers_overspend self2 payers) eqn:H2.
  - apply not_false_iff_true. intros H1.
    rewrite payers_overspend_false in H1.
    assert (payers_overspend self2 payers = false); [|congruence].
    apply payers_overspend_false. intros k v Hkv.
    rewrite <- (get_balance_frame self1 self2) by done. eauto.
  - apply payers_overspend_false. rewrite payers_overspend_false in H2.
    intros k v Hkv. rewrite (get_balance_frame self1 self2) by done. eauto.
Qed.

Lemma check_transactions_frame self1 self2 block :
  blocks self1 = blocks self2 →
  _check_transactions_and_block_reward verify self1 block
  = _check_transactions_and_block_reward verify self2 block.
Proof.
  intros Hbs. unfold _check_transactions_and_block_reward.
  rewrite (check_loop_frame self1 self2) by done.
  destruct (check_transactions_loop _ _ _ _ _ _) as [[payers r]|e]; [|done].
  cbn [mbind result_bind].
  by rewrite (payers_overspend_frame self1 self2).
Qed.

Lemma checks_frame self1 self2 block :
  blocks self1 = blocks self2 →
  validate_block_checks verify calculate_tx_hash calculate_block_hash
                        default_nonce self1 block
  = validate_block_checks verify calculate_tx_hash calculate_block_hash
                          default_nonce self2 block.
Proof.
  intros Hbs. unfold validate_block_checks.
  destruct (index block =? 0); [done|].
  unfold _check_hash_and_hash_pattern, _check_index_and_previous_hash,
    get_latest_block.
  rewrite Hbs, (check_transactions_frame self1 self2) by done. done.
Qed.

(** X7: the verdict on a block depends on the confirmed blocks alone:
    two states with the same blocks validate every block alike, so
    admitting or withdrawing a pending transaction never changes what
    [validate_block] answers. *)
Theorem validation_ignores_pool self1 self2 block :
  blocks self1 = blocks self2 →
  validate_block verify calculate_tx_hash calculate_block_hash default_nonce
                 self1 block
  = validate_block verify calculate_tx_hash calculate_block_hash
                   default_nonce self2 block
  ∧ (∀ t, validate_block verify calculate_tx_hash calculate_block_hash
                         default_nonce
                         (push_pending_transaction verify t self1).2 block
          = validate_block verify calculate_tx_hash calculate_block_hash
                           default_nonce self1 block)
  ∧ (∀ h, validate_block verify calculate_tx_hash calculate_block_hash
                         default_nonce
                         (remove_pending_transaction h self1).2 block
          = validate_block verify calculate_tx_hash calculate_block_hash
                           default_nonce self1 block).
Proof.
  intros Hbs. unfold validate_block. split; [|split].
  - by rewrite (checks_frame self1 self2).
  - intros t. rewrite (checks_frame _ self1); [done|].
    unfold push_pending_transaction.
    by destruct (validate_transaction verify self1 t).
  - intros h. rewrite (checks_frame _ self1); [done|].
    unfold remove_pending_transaction.
    by destruct (find_pending _ _ _) as [[?|]|?].
Qed.

Lemma check_transactions_fault self block e :
  _check_transactions_and_block_reward verify self block = Raise e →
  e = Blockchain (InvalidTransactions (index block))
  ∨ e = IndexError ∧ transactions block = [].
Proof.
  intros Hres.
  destruct (last (transactions block)) as [lst|] eqn:Hlast.
  - apply last_Some in Hlast as [front Htx]. left.
    rewrite (check_transactions_raises verify self block front lst Htx)
      in Hres; [by injection Hres | by rewrite Hres].
  - apply last_None in Hlast. right.
    rewrite (check_transactions_empty verify self block Hlast) in Hres.
    by injection Hres as <-.
Qed.

(** X8: [validate_block] lets an exception escape in two situations
    only, both an [IndexError] behind a passed proof-of-work check of a
    block of non-zero index: the chain has no block yet, or the block
    continues the chain and its transaction list is empty. In every
    other case it answers true or false. *)
Theorem validate_block_faults self block e :
  validate_block verify calculate_tx_hash calculate_block_hash default_nonce
                 self block = Raise e
  ↔ e = IndexError
    ∧ index block ≠ 0
    ∧ leading_zeros (Z.to_nat MINIMUM_HASH_DIFFICULTY) (current_hash block)
    ∧ (blocks self = []
       ∨ ∃ latest,
           last (blocks self) = Some latest
           ∧ index block = index latest + 1
           ∧ previous_hash block = current_hash latest
           ∧ transactions block = []).
Proof.
  rewrite validate_of_checks.
  change (Z.to_nat MINIMUM_HASH_DIFFICULTY)
    with (Z.to_nat (calculate_hash_dificulty self None)).
  rewrite <- check_hash_Ok.
  destruct (decide (index block = 0)) as [Hidx|Hidx].
  { rewrite checks_genesis by done. unfold _check_genesis_block.
    case_bool_decide; simpl; split; try done; by intros (_ & ? & _). }
  destruct (last (blocks self)) as [latest|] eqn:Hlast.
  - rewrite (checks_chained _ _ _ _ _ _ _ Hlast Hidx).
    destruct (check_hash_cases self block) as [Hpow|Hpow]; rewrite Hpow.
    2:{ simpl. split; [done|]. by intros (_ & _ & ? & _). }
    cbn [mbind result_bind].
    assert (Hne : blocks self ≠ []).
    { intros Hnil. by rewrite Hnil in Hlast. }
    case_bool_decide as Hcont.
    + destruct Hcont as [Hi Hp].
      destruct (_check_transactions_and_block_reward verify self block)
        as [[]|e'] eqn:Htx.
      * split; [done|].
        intros (_ & _ & _ & [Hnil|(l & _ & _ & _ & Hempty)]); [done|].
        by rewrite (check_transactions_empty _ _ _ Hempty) in Htx.
      * destruct (check_transactions_fault _ _ _ Htx) as [->|[-> Hempty]].
        -- split; [done|].
           intros (_ & _ & _ & [Hnil|(l & _ & _ & _ & Hempty)]); [done|].
           by rewrite (check_transactions_empty _ _ _ Hempty) in Htx.
        -- split.
           ++ intros [= <-]. repeat split; try done. right. by exists latest.
           ++ by intros (-> & _).
    + simpl. split; [done|].
      intros (_ & _ & _ & [Hnil|(l & [= <-] & Hi & Hp & _)]); [done|].
      by destruct Hcont.
  - apply last_None in Hlast as Hnil.
    unfold validate_block_checks.
    rewrite (proj2 (Z.eqb_neq _ _) Hidx).
    destruct (check_hash_cases self block) as [Hpow|Hpow]; rewrite Hpow.
    + cbn [mbind result_bind].
      unfold _check_index_and_previous_hash, get_latest_block.
      rewrite Hlast. cbn. split.
      * intros [= <-]. repeat split; try done. by left.
      * by intros (-> & _).
    + simpl. split; [done|]. by intros (_ & _ & ? & _).
Qed.

End Frame.

(** ** What every call keeps *)

Section Invariants.

Variable verify : Transaction → bool.
Variable calculate_tx_hash : string → string → Z → Z → Z → string → string.
Variable calculate_block_hash : Z → list Transaction → string → Z → Z → string.
Variable default_nonce : Z.

Local Abbreviation genesis :=
  (_get_genesis_block calculate_tx_hash calculate_block_hash default_nonce).
Local Abbreviation checks :=
  (validate_block_checks verify calculate_tx_hash calculate_block_hash
                         default_nonce).
Local Abbreviation step :=
  (api_step verify calculate_tx_hash calculate_block_hash default_nonce).
Local Abbreviation reached :=
  (api_reachable verify calculate_tx_hash calculate_block_hash default_nonce).

(** What one call can have done to the state. *)
Lemma api_step_inv self self' :
  step self self' →
  self' = self
  ∨ (∃ block, checks self block = Ok tt
              ∧ self' = {| blocks := blocks self ++ [block];
                           pending_transactions := pending_transactions self |})
  ∨ (∃ t, validate_transaction verify self t = true
          ∧ self' = {| blocks := blocks self;
                       pending_transactions :=
                         pending_transactions self ++ [Some t] |})
  ∨ (∃ i, self' = {| blocks := blocks self;
                     pending_transactions :=
                       delete i (pending_transactions self) |}).
Proof.
  intros [block s r s' Hadd|t s r s' Hpush|h s r s' Hrem].
  - destruct r as [[|]|e].
    + apply add_block_inv in Hadd as [Hok ->]. right; left. eauto.
    + left. unfold add_block in Hadd.
      destruct (validate_block _ _ _ _ _ _) as [[|]|?]; by simplify_eq.
    + left. unfold add_block in Hadd.
      destruct (validate_block _ _ _ _ _ _) as [[|]|?]; by simplify_eq.
  - unfold push_pending_transaction in Hpush.
    destruct (validate_transaction verify s t) eqn:Hv; simplify_eq;
      [|by left].
    right; right; left. eauto.
  - unfold remove_pending_transaction in Hrem.
    destruct (find_pending _ _ _) as [[i|]|e]; simplify_eq;
      [|by left|by left].
    right; right; right. eauto.
Qed.

Lemma reachable_api_reachable self :
  reachable verify calculate_tx_hash calculate_block_hash default_nonce self →
  reached self.
Proof.
  induction 1 as [|s b s' _ IH Hadd|s t s' _ IH Hpush].
  - apply rtc_refl.
  - eapply rtc_r; [exact IH|]. by eapply step_add_block.
  - eapply rtc_r; [exact IH|]. by eapply step_push.
Qed.

(** What the checks have established about an accepted block of
    non-zero index. *)
Lemma accepted_chained_block self block :
  index block ≠ 0 →
  checks self block = Ok tt →
  ∃ latest,
    last (blocks self) = Some latest
    ∧ index block = index latest + 1
    ∧ previous_hash block = current_hash latest
    ∧ leading_zeros (Z.to_nat MINIMUM_HASH_DIFFICULTY) (current_hash block).
Proof.
  intros Hidx Hok.
  destruct (last (blocks self)) as [latest|] eqn:Hlast.
  - exists latest. rewrite (checks_chained _ _ _ _ _ _ _ Hlast Hidx) in Hok.
    destruct (_check_hash_and_hash_pattern self block) as [[]|] eqn:Hpow;
      [|done].
    cbn [mbind result_bind] in Hok.
    case_bool_decide as Hcont; [|done]. destruct Hcont.
    repeat split; try done. by apply check_hash_Ok in Hpow.
  - unfold validate_block_checks in Hok.
    rewrite (proj2 (Z.eqb_neq _ _) Hidx) in Hok.
    destruct (_check_hash_and_hash_pattern self block); [|done].
    unfold _check_index_and_previous_hash, get_latest_block in Hok.
    by rewrite Hlast in Hok.
Qed.

Lemma accepted_genesis self block :
  index block = 0 → checks self block = Ok tt → block = genesis.
Proof.
  intros Hidx Hok. rewrite checks_genesis in Hok by done.
  unfold _check_genesis_block in Hok. by case_bool_decide.
Qed.

(** The facts about the list of blocks that every call keeps. *)
Lemma chain_invariant self :
  reached self →
  (blocks self = [] ∨ ∃ rest, blocks self = genesis :: rest)
  ∧ (∀ b, b ∈ blocks self →
          b = genesis
          ∨ 0 < index b
            ∧ leading_zeros (Z.to_nat MINIMUM_HASH_DIFFICULTY) (current_hash b)
            ∧ ∃ front lst,
                transactions b = front ++ [lst]
                ∧ Forall (fun t => verify t = true) front
                ∧ source lst = "0"
                ∧ amount lst = COINS_PER_BLOCK + total_fees front)
  ∧ (∀ (i : nat) p b,
        blocks self !! i = Some p →
        blocks self !! S i = Some b →
        b = genesis
        ∨ index b = index p + 1 ∧ previous_hash b = current_hash p).
Proof.
  revert self. apply rtc_ind_r.
  { split; [by left|]. split; [by intros b ?%elem_of_nil | done]. }
  intros s s' _ Hstep IH.
  apply api_step_inv in Hstep
    as [->|[(block & Hok & ->)|[(t & _ & ->)|(i & ->)]]]; try exact IH.
  destruct IH as (Hhead & Hall & Hlinks). cbn [blocks].
  destruct (decide (index block = 0)) as [Hidx|Hidx].
  - apply accepted_genesis in Hok as ->; [|done].
    split; [|split].
    + right. destruct Hhead as [->|[rest ->]]; [by exists []|].
      by exists (rest ++ [genesis]).
    + intros b [Hb|Hb%list_elem_of_singleton]%elem_of_app;
        [auto | subst b; by left].
    + intros i p b Hp Hb. apply lookup_snoc_Some in Hb as [[Hlt Hb]|[_ <-]];
        [|by left].
      apply (Hlinks i p b); [|done].
      apply lookup_snoc_Some in Hp as [[_ Hp]|[Hi _]]; [done | lia].
  - destruct (accepted_chained_block _ _ Hidx Hok)
      as (latest & Hlast & Hnext & Hprev & Hpow).
    destruct (accepted_block_transactions _ _ _ _ _ _ Hidx Hok)
      as (front & lst & Htx & Hpass & _ & Hamt & Hsrc).
    assert (Hlatest : 0 <= index latest).
    { destruct (Hall latest (last_Some_elem_of _ _ Hlast)) as [->|[? _]];
        [done | lia]. }
    split; [|split].
    + right. destruct Hhead as [Hnil|[rest ->]].
      * by rewrite Hnil in Hlast.
      * by exists (rest ++ [block]).
    + intros b [Hb|Hb%list_elem_of_singleton]%elem_of_app; [auto|].
      subst b. right. split; [lia|]. split; [done|].
      exists front, lst. repeat split; try done.
      eapply Forall_impl; [exact Hpass|]. by intros t [_ ?].
    + intros i p b Hp Hb.
      apply lookup_snoc_Some in Hb as [[Hlt Hb]|[Hi <-]].
      * apply (Hlinks i p b); [|done].
        apply lookup_snoc_Some in Hp as [[_ Hp]|[Hi _]]; [done | lia].
      * right. apply lookup_snoc_Some in Hp as [[_ Hp]|[Hi' _]]; [|lia].
        rewrite last_lookup in Hlast.
        replace (pred (length (blocks s))) with i in Hlast by lia.
        rewrite Hp in Hlast. by injection Hlast as ->.
Qed.

(** X9: on every state a chain object can be in, the chain is empty or
    starts with the genesis block, no block has a negative index, and a
    block of index 0 is the genesis block. *)
Theorem chain_starts_with_genesis self :
  api_reachable verify calculate_tx_hash calculate_block_hash default_nonce
                self →
  (blocks self = []
   ∨ head (blocks self)
     = Some (_get_genesis_block calculate_tx_hash calculate_block_hash
                                default_nonce))
  ∧ (∀ b, b ∈ blocks self →
          0 <= index b
          ∧ (index b = 0 →
             b = _get_genesis_block calculate_tx_hash calculate_block_hash
                                    default_nonce)).
Proof.
  intros (Hhead & Hall & _)%chain_invariant. split.
  - destruct Hhead as [?|[rest ->]]; auto.
  - intros b Hb. destruct (Hall b Hb) as [->|[Hpos _]].
    + split; [done | done].
    + split; [lia|]. intros Hz. lia.
Qed.

(** X10: on every state a chain object can be in, a block that follows
    another one in the chain is the genesis block again, or it carries
    the index of its predecessor plus one and the predecessor's hash as
    previous hash, and its own hash starts with six zero characters. *)
Theorem chain_links self (i : nat) p b :
  api_reachable verify calculate_tx_hash calculate_block_hash default_nonce
                self →
  blocks self !! i = Some p →
  blocks self !! S i = Some b →
  b = _get_genesis_block calculate_tx_hash calculate_block_hash default_nonce
  ∨ index b = index p + 1
    ∧ previous_hash b = current_hash p
    ∧ leading_zeros (Z.to_nat MINIMUM_HASH_DIFFICULTY) (current_hash b).
Proof.
  intros (_ & Hall & Hlinks)%chain_invariant Hp Hb.
  destruct (Hlinks i p b Hp Hb) as [->|[Hi Hprev]]; [by left|].
  destruct (Hall b (list_elem_of_lookup_2 _ _ _ Hb)) as [->|(_ & Hpow & _)];
    [by left|]. by right.
Qed.

(** X11: on every state a chain object can be in, every block other
    than the genesis block ends with a coinbase transaction from "0"
    whose amount is [COINS_PER_BLOCK] plus the fees of the transactions
    in front of it, and each of those has a signature that verifies. *)
Theorem confirmed_block_content self b :
  api_reachable verify calculate_tx_hash calculate_block_hash default_nonce
                self →
  b ∈ blocks self →
  b ≠ _get_genesis_block calculate_tx_hash calculate_block_hash
                         default_nonce →
  ∃ front lst,
    transactions b = front ++ [lst]
    ∧ Forall (fun t => verify t = true) front
    ∧ source lst = "0"
    ∧ amount lst = COINS_PER_BLOCK + total_fees front.
Proof.
  intros (_ & Hall & _)%chain_invariant Hb Hne.
  by destruct (Hall b Hb) as [->|(_ & _ & Hcontent)].
Qed.

(** On a reachable chain a confirmed hash that is not a genesis hash is
    a hit of the replay lookup. *)
Lemma reachable_hit self h :
  reached self →
  confirmed self h →
  h ∉ tx_hash <$> transactions genesis →
  truthy (find_duplicate_transactions self h) = true.
Proof.
  intros (_ & Hall & _)%chain_invariant Hconf Hgen.
  unfold find_duplicate_transactions.
  destruct (find_in_blocks (blocks self) h) as [i|] eqn:Hres.
  - apply find_in_blocks_first in Hres
      as (bs1 & b & bs2 & Hbs & Hfirst & Hb & <-).
    simpl. apply negb_true_iff, Z.eqb_neq. intros Hz.
    assert (Hin : b ∈ blocks self).
    { rewrite Hbs, elem_of_app, elem_of_cons. auto. }
    destruct (Hall b Hin) as [->|[Hpos _]]; [done | lia].
  - apply confirmed_block in Hconf as (b & Hb & Hh).
    by destruct (proj1 (find_in_blocks_None _ _) Hres b Hb).
Qed.

(** X12: on every state a chain object can be in, the replay lookup is
    read as a hit exactly for the confirmed identity hashes that are
    not the hash of a genesis transaction: what it misses is the
    genesis block, and nothing else. *)
Theorem replay_lookup_on_reachable self h :
  api_reachable verify calculate_tx_hash calculate_block_hash default_nonce
                self →
  truthy (find_duplicate_transactions self h) = true
  ↔ confirmed self h
    ∧ h ∉ tx_hash <$> transactions
            (_get_genesis_block calculate_tx_hash calculate_block_hash
                                default_nonce).
Proof.
  intros Hreach. split; [|intros [? ?]; by apply reachable_hit].
  apply chain_invariant in Hreach as (Hhead & _ & _).
  intros Htruthy. split; [by apply truthy_find_confirmed|].
  unfold find_duplicate_transactions in Htruthy.
  destruct (find_in_blocks (blocks self) h) as [i|] eqn:Hres; [|done].
  apply find_in_blocks_first in Hres
    as (bs1 & b & bs2 & Hbs & Hfirst & Hb & <-).
  simpl in Htruthy. apply negb_true_iff, Z.eqb_neq in Htruthy.
  rewrite Hbs in Hhead. destruct bs1 as [|b0 bs1].
  - destruct Hhead as [?|[rest [= Hg _]]]; [done|].
    by rewrite Hg in Htruthy.
  - destruct Hhead as [?|[rest [= -> _]]]; [done|]. apply Hfirst.
    apply list_elem_of_here.
Qed.

End Invariants.

(** ** The pool and the chain over time *)

Section StateOverTime.

Variable verify : Transaction → bool.
Variable calculate_tx_hash : string → string → Z → Z → Z → string → string.
Variable calculate_block_hash : Z → list Transaction → string → Z → Z → string.
Variable default_nonce : Z.

(** X13: on every state a chain object can be in, the pool has no hole
    and no two equal entries, and every entry has a signature that
    verifies; so there [get_balance_pending] never raises and is the
    confirmed balance replayed over the whole pool. *)
Theorem pending_pool_invariant self :
  api_reachable verify calculate_tx_hash calculate_block_hash default_nonce
                self →
  ∃ txs,
    pending_transactions self = Some <$> txs
    ∧ NoDup txs
    ∧ Forall (fun t => verify t = true) txs
    ∧ ∀ address,
        get_balance_pending self address
        = Ok (replay address txs (get_balance self address)).
Proof.
  assert (Hpool :
    ∀ s, api_reachable verify calculate_tx_hash calculate_block_hash
                       default_nonce s →
         ∃ txs, pending_transactions s = Some <$> txs
                ∧ NoDup txs ∧ Forall (fun t => verify t = true) txs).
  { apply rtc_ind_r.
    - exists []. repeat split; constructor.
    - intros s s' _ Hstep (txs & Hpend & Hnodup & Hver).
      apply api_step_inv in Hstep
        as [->|[(block & _ & ->)|[(t & Hv & ->)|(i & ->)]]];
        cbn [pending_transactions]; eauto.
      + apply validate_transaction_true in Hv as (Hnew & _ & Ht & _).
        exists (txs ++ [t]). rewrite fmap_app, Hpend. split; [done|]. split.
        * apply NoDup_app. split; [done|]. split; [|apply NoDup_singleton].
          intros u Hu ->%list_elem_of_singleton. apply Hnew.
          rewrite Hpend. by apply list_elem_of_fmap_2.
        * apply Forall_app. split; [done|]. by constructor.
      + exists (delete i txs). rewrite list_fmap_delete, Hpend.
        split; [done|]. split.
        * eapply sublist_NoDup; [exact Hnodup | apply sublist_delete].
        * by apply Forall_delete. }
  intros (txs & Hpend & Hnodup & Hver)%Hpool. exists txs.
  repeat split; try done. intros address. unfold get_balance_pending.
  rewrite Hpend. apply balance_pending_loop_replay.
Qed.

Lemma find_in_blocks_app bs k h i :
  find_in_blocks bs h = Some i → find_in_blocks (bs ++ k) h = Some i.
Proof.
  induction bs as [|b bs IH]; simpl; [done|].
  by destruct (existsb _ (transactions b)).
Qed.

(** X14: the chain only grows at its end: after any number of calls the
    blocks of before are a prefix of the blocks of after, a confirmed
    identity hash stays confirmed, and the replay lookup keeps
    returning the index it returned. *)
Theorem blocks_append_only self self' :
  rtc (api_step verify calculate_tx_hash calculate_block_hash default_nonce)
      self self' →
  blocks self `prefix_of` blocks self'
  ∧ (∀ h, confirmed self h → confirmed self' h)
  ∧ (∀ h i, find_duplicate_transactions self h = Some i →
            find_duplicate_transactions self' h = Some i).
Proof.
  intros Hsteps.
  assert (Hprefix : blocks self `prefix_of` blocks self').
  { revert self' Hsteps. apply rtc_ind_r; [done|].
    intros s s' _ Hstep IH.
    apply api_step_inv in Hstep
      as [->|[(block & _ & ->)|[(t & _ & ->)|(i & ->)]]];
      cbn [blocks]; try done.
    by apply prefix_app_r. }
  split; [done|]. destruct Hprefix as [k Hk]. split.
  - intros h (b & Hb & Hh)%confirmed_block. apply confirmed_block.
    exists b. split; [|done]. rewrite Hk. apply elem_of_app. by left.
  - intros h i. unfold find_duplicate_transactions. rewrite Hk.
    apply find_in_blocks_app.
Qed.

(** X15: two different transactions that would each be admitted to a
    state are both admitted when submitted one after the other: the
    admission of the first changes nothing in the checks of the second,
    so their costs are never added up against the balance. *)
Theorem admission_ignores_pending_cost self t1 t2 self1 self2 :
  t1 ≠ t2 →
  push_pending_transaction verify t1 self = (true, self1) →
  push_pending_transaction verify t2 self = (true, self2) →
  push_pending_transaction verify t2 self1
  = (true,
     {| blocks := blocks self;
        pending_transactions :=
          pending_transactions self ++ [Some t1; Some t2] |}).
Proof.
  intros Hne Hpush1 Hpush2. unfold push_pending_transaction in *.
  destruct (validate_transaction verify self t1) eqn:Hv1; [|done].
  destruct (validate_transaction verify self t2) eqn:Hv2; [|done].
  injection Hpush1 as <-.
  apply validate_transaction_true in Hv2 as (Hnew & Hdup & Hver & Hbal).
  rewrite (proj2 (validate_transaction_true verify _ t2)).
  - cbn [blocks pending_transactions]. by rewrite <- app_assoc.
  - cbn [pending_transactions]. repeat split; try done.
    rewrite elem_of_app, list_elem_of_singleton.
    intros [?|[= ?]]; done.
Qed.

End StateOverTime.

(** ** Templates, mined and submitted *)

Section TemplatePipeline.

Variable verify : Transaction → bool.
Variable calculate_tx_hash : string → string → Z → Z → Z → string → string.
Variable calculate_block_hash : Z → list Transaction → string → Z → Z → string.
Variable default_nonce : Z.

Lemma first_of_each_hash_fresh seen txs :
  NoDup (tx_hash <$> first_of_each_hash seen txs)
  ∧ ∀ t, t ∈ first_of_each_hash seen txs → tx_hash t ∉ seen.
Proof.
  revert seen. induction txs as [|t txs IH]; intros seen; simpl.
  - split; [constructor|]. by intros t ?%elem_of_nil.
  - case_bool_decide as Hseen; [apply IH|].
    destruct (IH (seen ++ [tx_hash t])) as [Hnodup Hfresh]. split.
    + rewrite fmap_cons. constructor; [|done].
      intros (u & Heq & Hu)%list_elem_of_fmap.
      apply (Hfresh u Hu). rewrite <- Heq, elem_of_app, list_elem_of_singleton.
      auto.
    + intros u [->|Hu]%elem_of_cons; [done|].
      intros Hin. apply (Hfresh u Hu). apply elem_of_app. auto.
Qed.

(** The transactions the builder puts in front of the reward. *)
Lemma template_selected self latest reward_address now :
  last (blocks self) = Some latest →
  ∃ block selected,
    get_minable_block verify calculate_tx_hash calculate_block_hash
                      default_nonce reward_address now self
    = (Ok block, self)
    ∧ index block = index latest + 1
    ∧ previous_hash block = current_hash latest
    ∧ transactions block
      = selected
        ++ [new_Transaction calculate_tx_hash "0" reward_address
              (get_reward self (index latest + 1) + total_fees selected)
              0 now "0"]
    ∧ NoDup (tx_hash <$> selected)
    ∧ Forall (passes verify self) selected.
Proof.
  intros Hlast. do 2 eexists.
  split; [by apply get_minable_block_eq|].
  cbn [index previous_hash transactions new_Block].
  repeat split.
  - eapply sublist_NoDup;
      [apply (first_of_each_hash_fresh [])|].
    rewrite fmap_take. apply sublist_take.
  - apply Forall_forall. intros t Ht.
    apply elem_of_take in Ht as (i & Ht & _).
    apply list_elem_of_lookup_2, first_of_each_hash_subseteq in Ht.
    by apply list_elem_of_filter in Ht as [? _].
Qed.

(** X16: in the block [get_minable_block] returns, no two of the
    transactions in front of the reward share an identity hash, each of
    them has a signature that verifies, and for none of them is the
    replay lookup read as a hit. *)
Theorem template_entries self latest reward_address now :
  last (blocks self) = Some latest →
  ∃ block,
    get_minable_block verify calculate_tx_hash calculate_block_hash
                      default_nonce reward_address now self
    = (Ok block, self)
    ∧ NoDup (tx_hash <$> removelast (transactions block))
    ∧ Forall (fun t =>
                verify t = true
                ∧ truthy (find_duplicate_transactions self (tx_hash t))
                  = false)
             (removelast (transactions block)).
Proof.
  intros Hlast.
  destruct (template_selected self latest reward_address now Hlast)
    as (block & selected & Heq & _ & _ & Htx & Hnodup & Hpass).
  exists block. split; [done|]. rewrite Htx, removelast_last.
  split; [done|]. eapply Forall_impl; [exact Hpass|].
  by intros t [? ?].
Qed.

(** X17: a template that comes back from mining with a hash of six
    leading zero characters (index, transactions and previous hash as
    the builder set them) is accepted by [validate_block] exactly when
    no source among its selected transactions is debited, summed over
    the template, more than its confirmed balance; otherwise the answer
    is false, the builder not having looked at balances. *)
Theorem mined_template_validation self latest reward_address now
    template mined :
  last (blocks self) = Some latest →
  index latest ≠ -1 →
  (get_minable_block verify calculate_tx_hash calculate_block_hash
                     default_nonce reward_address now self).1 = Ok template →
  index mined = index template →
  transactions mined = transactions template →
  previous_hash mined = previous_hash template →
  leading_zeros (Z.to_nat MINIMUM_HASH_DIFFICULTY) (current_hash mined) →
  (validate_block verify calculate_tx_hash calculate_block_hash
                  default_nonce self mined = Ok true
   ↔ funded self (removelast (transactions template)))
  ∧ (¬ funded self (removelast (transactions template)) →
     validate_block verify calculate_tx_hash calculate_block_hash
                    default_nonce self mined = Ok false).
Proof.
  intros Hlast Hidx Htemplate Hi Ht Hp Hpow.
  destruct (template_selected self latest reward_address now Hlast)
    as (block & selected & Heq & Hbi & Hbp & Htx & _ & Hpass).
  rewrite Heq in Htemplate. injection Htemplate as <-.
  rewrite Htx, removelast_last. rewrite Htx in Ht.
  assert (Hnz : index mined ≠ 0) by lia.
  rewrite validate_of_checks.
  rewrite (checks_chained _ _ _ _ _ _ _ Hlast Hnz).
  rewrite (proj2 (check_hash_Ok self mined)) by done.
  cbn [mbind result_bind].
  rewrite bool_decide_eq_true_2 by (split; congruence).
  pose proof (check_transactions_ok_iff verify self mined _ _ Ht) as Hok.
  destruct (_check_transactions_and_block_reward verify self mined)
    as [[]|e] eqn:Hres.
  - apply proj1 in Hok. destruct (Hok eq_refl) as (_ & Hfunded & _).
    split; [done|]. by intros [].
  - assert (Hnot : ¬ funded self selected).
    { intros Hfunded. assert (Raise e = Ok tt); [|done].
      apply Hok. repeat split; done. }
    rewrite (check_transactions_raises verify self mined _ _ Ht) in Hres
      by (by rewrite Hres).
    injection Hres as <-. split; [|done]. split; [done|]. by intros ?.
Qed.

End TemplatePipeline.

(** ** The constructor *)

Section Constructor.

Variable verify : Transaction → bool.
Variable calculate_tx_hash : string → string → Z → Z → Z → string → string.
Variable calculate_block_hash : Z → list Transaction → string → Z → Z → string.
Variable default_nonce : Z.

Local Abbreviation add_all :=
  (add_blocks verify calculate_tx_hash calculate_block_hash default_nonce).
Local Abbreviation step :=
  (api_step verify calculate_tx_hash calculate_block_hash default_nonce).

Lemma add_blocks_app bs1 bs2 self :
  add_all (bs1 ++ bs2) self
  = match add_all bs1 self with
    | Ok self' => add_all bs2 self'
    | Raise e => Raise e
    end.
Proof.
  revert self. induction bs1 as [|b bs1 IH]; intros self; simpl; [done|].
  destruct (add_block _ _ _ _ b self) as [[r|e] self']; [apply IH | done].
Qed.

Lemma add_blocks_steps bs self self' :
  add_all bs self = Ok self' →
  rtc step self self'
  ∧ pending_transactions self' = pending_transactions self
  ∧ ∃ k, blocks self' = blocks self ++ k ∧ k `sublist_of` bs.
Proof.
  revert self. induction bs as [|b bs IH]; intros self; simpl.
  - intros [= <-]. split; [done|]. split; [done|].
    exists []. by rewrite app_nil_r.
  - destruct (add_block _ _ _ _ b self) as [[r|e] s1] eqn:Hadd; [|done].
    intros (Hsteps & Hpend & k & Hblocks & Hsub)%IH.
    assert (Hstep : step self s1) by (by eapply step_add_block).
    split; [by eapply rtc_l|].
    unfold add_block in Hadd.
    destruct (validate_block _ _ _ _ self b) as [[|]|?]; simplify_eq;
      cbn [blocks pending_transactions] in *.
    + split; [done|]. exists (b :: k). rewrite Hblocks, <- app_assoc.
      split; [done | by constructor].
    + split; [done|]. exists k. split; [done | by constructor].
Qed.

(** X18: a chain object built from a non-empty list of blocks holds a
    sub-sequence of that list, in its order, and an empty pool: every
    block the validation turns down is left out without notice, and
    the state is one the calls of the object lead to. *)
Theorem constructor_keeps_accepted_blocks bs self :
  bs ≠ [] →
  __init__ verify calculate_tx_hash calculate_block_hash default_nonce bs
  = Ok self →
  blocks self `sublist_of` bs
  ∧ pending_transactions self = []
  ∧ api_reachable verify calculate_tx_hash calculate_block_hash default_nonce
                  self.
Proof.
  intros Hne Hinit. unfold __init__ in Hinit.
  destruct bs as [|b bs]; [done|].
  apply add_blocks_steps in Hinit as (Hsteps & Hpend & k & Hblocks & Hsub).
  rewrite Hblocks. done.
Qed.

(** X19: the constructor raises [IndexError] when the first block of
    the list has a non-zero index and a hash of six leading zero
    characters: the continuity check then asks an empty chain for its
    latest block. *)
Theorem constructor_fault b rest :
  index b ≠ 0 →
  leading_zeros (Z.to_nat MINIMUM_HASH_DIFFICULTY) (current_hash b) →
  __init__ verify calculate_tx_hash calculate_block_hash default_nonce
           (b :: rest)
  = Raise IndexError.
Proof.
  intros Hidx Hpow. unfold __init__. cbn [add_blocks].
  unfold add_block, validate_block, validate_block_checks.
  rewrite (proj2 (Z.eqb_neq _ _) Hidx).
  rewrite (proj2 (check_hash_Ok _ b)) by done.
  done.
Qed.

Lemma reload_blocks self :
  api_reachable verify calculate_tx_hash calculate_block_hash default_nonce
                self →
  add_all (blocks self) {| blocks := []; pending_transactions := [] |}
  = Ok {| blocks := blocks self; pending_transactions := [] |}.
Proof.
  revert self. apply rtc_ind_r; [done|].
  intros s s' _ Hstep IH.
  apply api_step_inv in Hstep
    as [->|[(block & Hok & ->)|[(t & _ & ->)|(i & ->)]]];
    cbn [blocks]; try done.
  rewrite add_blocks_app, IH. cbn [add_blocks].
  rewrite (add_block_accepts verify calculate_tx_hash calculate_block_hash
             default_nonce _ block); [done|].
  by rewrite (checks_frame _ _ _ _ _ s).
Qed.

(** X20: building a new chain object from the blocks of a chain object
    that has at least one block gives the same chain again, with an
    empty pool: every block is accepted a second time, in its place. *)
Theorem constructor_reload self :
  api_reachable verify calculate_tx_hash calculate_block_hash default_nonce
                self →
  blocks self ≠ [] →
  __init__ verify calculate_tx_hash calculate_block_hash default_nonce
           (blocks self)
  = Ok {| blocks := blocks self; pending_transactions := [] |}.
Proof.
  intros Hreach Hne. unfold __init__.
  destruct (blocks self) as [|b bs] eqn:Hbs; [done|].
  rewrite <- Hbs. by apply reload_blocks.
Qed.

End Constructor.

(** ** Confirmed transactions and balances *)

Section Settlement.

Variable verify : Transaction → bool.
Variable calculate_tx_hash : string → string → Z → Z → Z → string → string.
Variable calculate_block_hash : Z → list Transaction → string → Z → Z → string.
Variable default_nonce : Z.

(** X21: on every state a chain object can be in, a confirmed identity
    hash other than those of the genesis transactions is out of
    circulation: the template builder does not select a pool entry that
    carries it, and a transaction that carries it is not admitted to
    the pool. *)
Theorem confirmed_not_offered_again self h reward_address now :
  api_reachable verify calculate_tx_hash calculate_block_hash default_nonce
                self →
  confirmed self h →
  h ∉ tx_hash <$> transactions
          (_get_genesis_block calculate_tx_hash calculate_block_hash
                              default_nonce) →
  (∃ block,
      get_minable_block verify calculate_tx_hash calculate_block_hash
                        default_nonce reward_address now self
      = (Ok block, self)
      ∧ h ∉ tx_hash <$> removelast (transactions block))
  ∧ (∀ t, tx_hash t = h →
          push_pending_transaction verify t self = (false, self)).
Proof.
  intros Hreach Hconf Hgen.
  pose proof (reachable_hit _ _ _ _ _ _ Hreach Hconf Hgen) as Hhit.
  split.
  - destruct (last (blocks self)) as [latest|] eqn:Hlast.
    + destruct (template_selected verify calculate_tx_hash
                  calculate_block_hash default_nonce self latest
                  reward_address now Hlast)
        as (block & selected & Heq & _ & _ & Htx & _ & Hpass).
      exists block. split; [done|]. rewrite Htx, removelast_last.
      intros (t & -> & Ht)%list_elem_of_fmap.
      rewrite Forall_forall in Hpass. destruct (Hpass t Ht) as [Hmiss _].
      congruence.
    + apply last_None in Hlast.
      apply confirmed_block in Hconf as (b & Hb & _).
      rewrite Hlast in Hb. by apply elem_of_nil in Hb.
  - intros t <-. unfold push_pending_transaction.
    destruct (validate_transaction verify self t) eqn:Hv; [|done].
    apply validate_transaction_true in Hv as (_ & Hmiss & _). congruence.
Qed.

(** X22: [add_block] changes balances by the transactions of the block
    it appends and by nothing else: each balance goes down by what the
    block debits the address as a source and up by what it credits it
    as a destination; a call that does not answer true leaves the state,
    and so every balance, as it was. *)
Theorem add_block_balances block self r self' address :
  add_block verify calculate_tx_hash calculate_block_hash default_nonce
            block self = (r, self') →
  (r = Ok true →
   get_balance self' address
   = get_balance self address
     - total_debit address (transactions block)
     + total_credit address (transactions block))
  ∧ (r ≠ Ok true → self' = self).
Proof.
  intros Hadd. split.
  - intros ->. apply add_block_inv in Hadd as [_ ->].
    destruct self as [bs pend]. cbn [blocks pending_transactions].
    by rewrite get_balance_snoc, replay_totals.
  - intros Hr. unfold add_block in Hadd.
    destruct (validate_block _ _ _ _ self block) as [[|]|?];
      by simplify_eq.
Qed.

(** X23: admitting a transaction to a pool without holes moves the
    pending balance of every address by the debit and credit of that
    one transaction, while the confirmed balance stays. *)
Theorem pending_balance_after_admission self txs t self' address :
  pending_transactions self = Some <$> txs →
  push_pending_transaction verify t self = (true, self') →
  get_balance_pending self' address
  = Ok (replay address txs (get_balance self address)
        + ledger_delta address t)
  ∧ get_balance self' address = get_balance self address.
Proof.
  intros Hpend Hpush. unfold push_pending_transaction in Hpush.
  destruct (validate_transaction verify self t); [|done].
  injection Hpush as <-. split; [|done].
  unfold get_balance_pending. cbn [pending_transactions].
  rewrite Hpend.
  change ((Some <$> txs) ++ [Some t]) with ((Some <$> txs) ++ (Some <$> [t])).
  rewrite <- fmap_app, balance_pending_loop_replay, replay_app. done.
Qed.

Lemma sum_over_indicator (x : string) (v : Z) addresses :
  NoDup addresses →
  x ∈ addresses →
  sum_over (fun a => if bool_decide (x = a) then v else 0) addresses = v.
Proof.
  unfold sum_over. induction 1 as [|a l Ha Hl IH]; simpl.
  - by intros ?%elem_of_nil.
  - intros [->|Hx]%elem_of_cons.
    + rewrite bool_decide_eq_true_2 by done.
      assert (Hzero : foldr (fun a0 acc =>
                 (if bool_decide (a = a0) then v else 0) + acc) 0 l = 0).
      { clear IH Hl. induction l as [|b l IHl]; simpl; [done|].
        apply not_elem_of_cons in Ha as [Hab Ha].
        rewrite bool_decide_eq_false_2 by done. rewrite IHl by done. lia. }
      lia.
    + rewrite bool_decide_eq_false_2 by (intros ->; done).
      rewrite IH by done. lia.
Qed.

Lemma sum_over_plus (f g : string → Z) addresses :
  sum_over (fun a => f a + g a) addresses
  = sum_over f addresses + sum_over g addresses.
Proof. unfold sum_over. induction addresses; simpl; lia. Qed.

Lemma sum_over_zero addresses : sum_over (fun _ => 0) addresses = 0.
Proof. unfold sum_over. induction addresses; simpl; lia. Qed.

Lemma sum_over_replay addresses txs :
  NoDup addresses →
  (∀ t, t ∈ txs → source t ∈ addresses ∧ destination t ∈ addresses) →
  sum_over (fun a => replay a txs 0) addresses = - total_fees txs.
Proof.
  intros Hnodup Hcover.
  assert (Hstart : ∀ start : string → Z,
    sum_over (fun a => replay a txs (start a)) addresses
    = sum_over start addresses - total_fees txs).
  { induction txs as [|t txs IH]; intros start.
    - unfold replay. simpl. by rewrite Z.sub_0_r.
    - unfold replay in *. cbn [fold_left].
      rewrite IH by (intros u Hu; apply Hcover; by apply list_elem_of_further).
      rewrite sum_over_plus. unfold ledger_delta.
      rewrite sum_over_plus.
      destruct (Hcover t (list_elem_of_here _ _)) as [Hs Hd].
      rewrite (sum_over_indicator (source t) _ _ Hnodup Hs).
      rewrite (sum_over_indicator (destination t) _ _ Hnodup Hd).
      unfold total_fees. simpl. lia. }
  rewrite Hstart, sum_over_zero. lia.
Qed.

(** X24: over a duplicate-free list of addresses that names every
    source and destination of the confirmed transactions, the balances
    add up to minus the fees of the confirmed transactions: amounts
    only move between addresses, the coinbase source "0" being debited
    what a reward credits. *)
Theorem balances_add_up self addresses :
  NoDup addresses →
  (∀ t, t ∈ confirmed_transactions self →
        source t ∈ addresses ∧ destination t ∈ addresses) →
  sum_over (get_balance self) addresses
  = - total_fees (confirmed_transactions self).
Proof.
  intros Hnodup Hcover.
  rewrite <- (sum_over_replay addresses) by done.
  unfold sum_over. induction addresses as [|a l IH]; simpl; [done|].
  apply NoDup_cons in Hnodup as [_ Hl].
  rewrite get_balance_replay. f_equal.
  clear IH Hcover Hl. induction l as [|b l IHl]; simpl; [done|].
  by rewrite get_balance_replay, IHl.
Qed.

End Settlement.

(** ** The further properties on the sample chains *)

(** Withdrawing the hash of [payment_two] from the pool of two. *)
Lemma remove_pending_result_witness :
  pending_transactions crowded_chain = Some <$> [payment; payment_two]
  ∧ (remove_pending_transaction (tx_hash payment_two) crowded_chain).1
    = Ok true
  ∧ remove_pending_transaction "unknown" crowded_chain
    = (Ok false, crowded_chain).
Proof.
  assert (Hpend : pending_transactions crowded_chain
                  = Some <$> [payment; payment_two]) by reflexivity.
  split; [exact Hpend|].
  pose proof (remove_pending_result crowded_chain [payment; payment_two]
                (tx_hash payment_two) Hpend) as (Hres & _).
  pose proof (remove_pending_result crowded_chain [payment; payment_two]
                "unknown" Hpend) as (_ & _ & _ & Habsent).
  split.
  - rewrite Hres. by vm_compute.
  - apply Habsent. apply (bool_decide_unpack _). by vm_compute.
Defined.

(** [payment] is admitted to the fresh chain and withdrawn again. *)
Lemma push_then_remove_witness :
  push_pending_transaction sample_verify payment fresh_chain
  = (true, pending_chain)
  ∧ remove_pending_transaction (tx_hash payment) pending_chain
    = (Ok true, fresh_chain).
Proof.
  assert (Hpush : push_pending_transaction sample_verify payment fresh_chain
                  = (true, pending_chain)) by (by vm_compute).
  split; [exact Hpush|].
  apply (push_then_remove sample_verify fresh_chain [] payment pending_chain).
  - reflexivity.
  - apply (bool_decide_unpack _). by vm_compute.
  - exact Hpush.
Defined.

(** Withdrawing the hash of [payment] twice from the pool of two. *)
Lemma remove_pending_twice_witness :
  (remove_pending_transaction (tx_hash payment) crowded_chain).1 = Ok true
  ∧ remove_pending_transaction (tx_hash payment)
      (remove_pending_transaction (tx_hash payment) crowded_chain).2
    = (Ok false,
       (remove_pending_transaction (tx_hash payment) crowded_chain).2).
Proof.
  apply (remove_pending_twice crowded_chain [payment; payment_two]
           (tx_hash payment)).
  - reflexivity.
  - apply (bool_decide_unpack _). by vm_compute.
  - apply (bool_decide_unpack _). by vm_compute.
Defined.

(** Position 1, the last position from the end, and a position too far
    from the end, on the chain of two blocks. *)
Lemma get_block_by_index_bounds_witness :
  get_block_by_index extended_chain 1 = Ok (Some block_one)
  ∧ get_block_by_index extended_chain (-2) = Ok (Some sample_genesis)
  ∧ get_block_by_index extended_chain (-3) = Raise IndexError.
Proof.
  pose proof (get_block_by_index_bounds extended_chain 1) as (H1 & _).
  pose proof (get_block_by_index_bounds extended_chain (-2))
    as (_ & H2 & _).
  pose proof (get_block_by_index_bounds extended_chain (-3))
    as (_ & _ & H3 & _).
  split; [|split].
  - apply H1. lia.
  - apply H2. simpl. lia.
  - apply H3. simpl. lia.
Defined.

(** The verdict on block 1 with and without a pending transaction. *)
Lemma validation_ignores_pool_witness :
  blocks pending_chain = blocks fresh_chain
  ∧ validate_block sample_verify sample_tx_hash sample_block_hash 0
                   pending_chain block_one
    = validate_block sample_verify sample_tx_hash sample_block_hash 0
                     fresh_chain block_one.
Proof.
  assert (Hbs : blocks pending_chain = blocks fresh_chain) by reflexivity.
  split; [exact Hbs|].
  apply (validation_ignores_pool sample_verify sample_tx_hash
           sample_block_hash 0 pending_chain fresh_chain block_one Hbs).
Defined.

(** The chain of genesis and block 1 is a state of a chain object. *)
Lemma extended_chain_api_reachable :
  api_reachable sample_verify sample_tx_hash sample_block_hash 0
                extended_chain.
Proof.
  apply reachable_api_reachable, extended_chain_reachable.
Defined.

Lemma chain_starts_with_genesis_witness :
  head (blocks extended_chain) = Some sample_genesis
  ∧ 0 <= index block_one.
Proof.
  destruct (chain_starts_with_genesis sample_verify sample_tx_hash
              sample_block_hash 0 extended_chain
              extended_chain_api_reachable) as [Hhead Hidx].
  split.
  - destruct Hhead as [Hnil|Hhead]; [by vm_compute in Hnil | exact Hhead].
  - apply (Hidx block_one).
    apply list_elem_of_further, list_elem_of_here.
Defined.

Lemma chain_links_witness :
  block_one = sample_genesis
  ∨ index block_one = index sample_genesis + 1
    ∧ previous_hash block_one = current_hash sample_genesis
    ∧ leading_zeros (Z.to_nat MINIMUM_HASH_DIFFICULTY)
                    (current_hash block_one).
Proof.
  apply (chain_links sample_verify sample_tx_hash sample_block_hash 0
           extended_chain 0 sample_genesis block_one
           extended_chain_api_reachable); reflexivity.
Defined.

Lemma confirmed_block_content_witness :
  ∃ front lst,
    transactions block_one = front ++ [lst]
    ∧ Forall (fun t => sample_verify t = true) front
    ∧ source lst = "0"
    ∧ amount lst = COINS_PER_BLOCK + total_fees front.
Proof.
  apply (confirmed_block_content sample_verify sample_tx_hash
           sample_block_hash 0 extended_chain block_one
           extended_chain_api_reachable).
  - apply list_elem_of_further, list_elem_of_here.
  - by vm_compute.
Defined.

Lemma replay_lookup_on_reachable_witness :
  truthy (find_duplicate_transactions extended_chain (tx_hash payment))
  = true.
Proof.
  apply (replay_lookup_on_reachable sample_verify sample_tx_hash
           sample_block_hash 0 extended_chain (tx_hash payment)
           extended_chain_api_reachable).
  split; apply (bool_decide_unpack _); by vm_compute.
Defined.

(** The pool of two is a state of a chain object. *)
Lemma crowded_chain_api_reachable :
  api_reachable sample_verify sample_tx_hash sample_block_hash 0
                crowded_chain.
Proof.
  eapply rtc_r; [eapply rtc_r; [eapply rtc_r; [apply rtc_refl|]|]|].
  - apply (step_add_block _ _ _ _ sample_genesis _ (Ok true) fresh_chain).
    by vm_compute.
  - apply (step_push _ _ _ _ payment _ true pending_chain). by vm_compute.
  - apply (step_push _ _ _ _ payment_two _ true crowded_chain).
    by vm_compute.
Defined.

Lemma pending_pool_invariant_witness :
  ∃ txs,
    pending_transactions crowded_chain = Some <$> txs
    ∧ NoDup txs
    ∧ Forall (fun t => sample_verify t = true) txs
    ∧ ∀ address,
        get_balance_pending crowded_chain address
        = Ok (replay address txs (get_balance crowded_chain address)).
Proof.
  exact (pending_pool_invariant sample_verify sample_tx_hash sample_block_hash
           0 crowded_chain crowded_chain_api_reachable).
Defined.

Lemma blocks_append_only_witness :
  blocks fresh_chain `prefix_of` blocks extended_chain.
Proof.
  apply (blocks_append_only sample_verify sample_tx_hash sample_block_hash 0
           fresh_chain extended_chain).
  apply rtc_once.
  apply (step_add_block _ _ _ _ block_one _ (Ok true)). by vm_compute.
Defined.

(** Two payments of 6 and 10 against a balance of 10. *)
Lemma admission_ignores_pending_cost_witness :
  get_balance fresh_chain address_one = 10
  ∧ push_pending_transaction sample_verify payment_two pending_chain
    = (true, crowded_chain).
Proof.
  split; [by vm_compute|].
  apply (admission_ignores_pending_cost sample_verify fresh_chain payment
           payment_two pending_chain
           {| blocks := [sample_genesis];
              pending_transactions := [Some payment_two] |}).
  - by vm_compute.
  - by vm_compute.
  - by vm_compute.
Defined.

Lemma template_entries_witness :
  ∃ block,
    get_minable_block sample_verify sample_tx_hash sample_block_hash 0
                      "miner" 300 crowded_chain
    = (Ok block, crowded_chain)
    ∧ NoDup (tx_hash <$> removelast (transactions block))
    ∧ Forall (fun t =>
                sample_verify t = true
                ∧ truthy (find_duplicate_transactions crowded_chain
                            (tx_hash t)) = false)
             (removelast (transactions block)).
Proof.
  apply (template_entries sample_verify sample_tx_hash sample_block_hash 0
           crowded_chain sample_genesis "miner" 300). reflexivity.
Defined.

(** The mined template over the pool of one payment is accepted. *)
Lemma mined_template_validation_witness :
  validate_block sample_verify sample_tx_hash sample_block_hash 0
                 pending_chain mined_template = Ok true.
Proof.
  pose proof (mined_template_validation sample_verify sample_tx_hash
                sample_block_hash 0 pending_chain sample_genesis "miner" 300
                (new_Block sample_block_hash 0 1
                   [payment; sample_reward 11 300]
                   (current_hash sample_genesis) 300 None)
                mined_template) as Hiff.
  apply Hiff.
  - reflexivity.
  - by vm_compute.
  - by vm_compute.
  - reflexivity.
  - reflexivity.
  - reflexivity.
  - six_leading_zeros.
  - intros s Hs. cbn in Hs. apply list_elem_of_singleton in Hs as ->.
    by vm_compute.
Defined.

Lemma constructor_keeps_accepted_blocks_witness :
  __init__ sample_verify sample_tx_hash sample_block_hash 0
           [sample_genesis; block_one_weak; block_one]
  = Ok extended_chain
  ∧ blocks extended_chain
    `sublist_of` [sample_genesis; block_one_weak; block_one].
Proof.
  assert (Hinit : __init__ sample_verify sample_tx_hash sample_block_hash 0
                    [sample_genesis; block_one_weak; block_one]
                  = Ok extended_chain) by (by vm_compute).
  split; [exact Hinit|].
  apply (constructor_keeps_accepted_blocks sample_verify sample_tx_hash
           sample_block_hash 0 _ extended_chain); [done | exact Hinit].
Defined.

Lemma constructor_fault_witness :
  __init__ sample_verify sample_tx_hash sample_block_hash 0
           [block_one; sample_genesis]
  = Raise IndexError.
Proof.
  apply (constructor_fault sample_verify sample_tx_hash sample_block_hash 0
           block_one [sample_genesis]).
  - by vm_compute.
  - six_leading_zeros.
Defined.

Lemma constructor_reload_witness :
  __init__ sample_verify sample_tx_hash sample_block_hash 0
           (blocks extended_chain)
  = Ok {| blocks := blocks extended_chain; pending_transactions := [] |}.
Proof.
  apply (constructor_reload sample_verify sample_tx_hash sample_block_hash 0
           extended_chain extended_chain_api_reachable).
  by vm_compute.
Defined.

(** Once block 1 is confirmed, [payment] is not admitted again. *)
Lemma confirmed_not_offered_again_witness :
  push_pending_transaction sample_verify payment extended_chain
  = (false, extended_chain).
Proof.
  refine (proj2 (confirmed_not_offered_again sample_verify sample_tx_hash
                   sample_block_hash 0 extended_chain (tx_hash payment)
                   "miner" 300 extended_chain_api_reachable _ _)
            payment eq_refl);
    apply (bool_decide_unpack _); by vm_compute.
Defined.

(** Block 1 takes 6 from the first genesis address. *)
Lemma add_block_balances_witness :
  get_balance extended_chain address_one
  = get_balance fresh_chain address_one
    - total_debit address_one (transactions block_one)
    + total_credit address_one (transactions block_one).
Proof.
  apply (add_block_balances sample_verify sample_tx_hash sample_block_hash 0
           block_one fresh_chain (Ok true) extended_chain address_one).
  - by vm_compute.
  - reflexivity.
Defined.

Lemma pending_balance_after_admission_witness :
  get_balance_pending crowded_chain address_one
  = Ok (replay address_one [payment] (get_balance pending_chain address_one)
        + ledger_delta address_one payment_two).
Proof.
  apply (pending_balance_after_admission sample_verify pending_chain
           [payment] payment_two crowded_chain address_one).
  - reflexivity.
  - by vm_compute.
Defined.

Lemma balances_add_up_witness :
  sum_over (get_balance extended_chain)
           ["0"; address_one; address_two; "alice"; "miner"]
  = - total_fees (confirmed_transactions extended_chain).
Proof.
  apply (balances_add_up extended_chain).
  - apply (bool_decide_unpack _). by vm_compute.
  - intros t Ht. split; apply (bool_decide_unpack _);
      revert t Ht; apply Forall_forall;
      apply (bool_decide_unpack _); by vm_compute.
Defined.
